(** * The National Weather Service integration: update coordinator

    A shallow embedding of [homeassistant/components/nws/__init__.py]:
    the identity strings, the coordinator [NwsData], the per-item update
    with its edge-triggered logging, the update cycle, and the
    per-location configuration schema. *)

From Stdlib Require Import QArith Ascii DecimalString.
From stdpp Require Import base option list strings gmap.

Local Open Scope string_scope.
Local Open Scope list_scope.

(** ** Exceptions and results *)

(** The exceptions a fetch can raise.  [aiohttp.ClientError] and
    [asyncio.TimeoutError] are the two classes named by the [except]
    clause of [_async_update_item]; [OtherException] stands for an
    instance of any class outside them. *)
Inductive exn : Type :=
  | ClientError (msg : string)
  | TimeoutError (msg : string)
  | OtherException (cls msg : string).

(** [isinstance(err, (aiohttp.ClientError, asyncio.TimeoutError))]. *)
Definition is_transient (e : exn) : bool :=
  match e with
  | ClientError _ | TimeoutError _ => true
  | OtherException _ _ => false
  end.

(** [str(err)], as the [%s] of the error log renders it. *)
Definition str_exn (e : exn) : string :=
  match e with
  | ClientError m | TimeoutError m | OtherException _ m => m
  end.

Inductive result (A : Type) : Type :=
  | Ret (a : A)
  | Raise (e : exn).
Arguments Ret {A} a.
Arguments Raise {A} e.

(** ** The three items and what the provider answers *)

Inductive item : Type := observation | forecast | forecast_hourly.

Global Instance item_eq_dec : EqDecision item.
Proof. solve_decision. Defined.

(** The [update_type] string passed for each item by [async_update]. *)
Definition update_type (it : item) : string :=
  match it with
  | observation => "observation"
  | forecast => "forecast"
  | forecast_hourly => "forecast_hourly"
  end.

(** What awaiting one of the client's update methods does. *)
Inductive outcome : Type :=
  | Success
  | Raises (e : exn).

Definition is_success (o : outcome) : bool :=
  match o with Success => true | Raises _ => false end.

Definition is_transient_failure (o : outcome) : bool :=
  match o with Success => false | Raises e => is_transient e end.

Definition is_fatal (o : outcome) : bool :=
  match o with Success => false | Raises e => negb (is_transient e) end.

(** ** Logging *)

Inductive level : Type := DEBUG | WARNING.

Global Instance level_eq_dec : EqDecision level.
Proof. solve_decision. Defined.

(** A call [_LOGGER.<level>(msg, *args)], arguments already rendered. *)
Record LogRecord : Type := mkLog {
  levelname : level;
  msg : string;
  args : list string
}.

Definition MSG_UPDATING : string := "Updating %s for station %s".
Definition MSG_SUCCESS : string := "Success updating %s for station %s".
Definition MSG_ERROR : string := "Error updating %s for station %s: %s".

(** The record was logged for item [it]: its first argument is the
    item's [update_type]. *)
Definition about (it : item) (r : LogRecord) : bool :=
  match args r with
  | a :: _ => String.eqb a (update_type it)
  | [] => false
  end.

(** The failure warning of [_async_update_item] for item [it]. *)
Definition is_error_log (it : item) (r : LogRecord) : bool :=
  bool_decide (levelname r = WARNING) && String.eqb (msg r) MSG_ERROR && about it r.

(** The recovery notice of [_async_update_item] for item [it]. *)
Definition is_recovery_log (it : item) (r : LogRecord) : bool :=
  bool_decide (levelname r = WARNING) && String.eqb (msg r) MSG_SUCCESS && about it r.

Definition count_log (p : LogRecord -> bool) (l : list LogRecord) : nat :=
  length (List.filter p l).

(** ** Strings without an underscore *)

(** The character ["_"] occurs in the string. *)
Fixpoint has_underscore (s : string) : bool :=
  match s with
  | EmptyString => false
  | String c rest => Ascii.eqb c "_"%char || has_underscore rest
  end.

(** ** What the client answers to [set_station] *)

(** Awaiting [SimpleNWS.set_station(station)] leaves the client bound
    to a station, [None] if it found none, and holding the list of the
    nearby stations, here by its rendering; or it raises. *)
Inductive station_answer : Type :=
  | StationBound (st : option string) (stations : string)
  | StationRaises (e : exn).

(** ** The world outside the coordinator *)

(** The provider's answers for the current cycle, the requests made to
    it, the records handed to [_LOGGER] and the signals sent through the
    dispatcher, the last three in chronological order. *)
Record World : Type := mkWorld {
  network : item -> outcome;
  requests : list item;
  log : list LogRecord;
  signals : list string
}.

(** ** What the provider answers in the examples *)

Definition quiet (net : item → outcome) : World := mkWorld net [] [] [].

Definition all_good : item → outcome := λ _, Success.

Definition all_fail : item → outcome := λ _, Raises (ClientError "down").

Definition forecast_times_out : item → outcome :=
  λ it, match it with
        | forecast => Raises (TimeoutError "timeout")
        | _ => Success
        end.

Definition only_forecast_times_out : item → outcome :=
  λ it, match it with
        | forecast => Raises (TimeoutError "timeout")
        | _ => Raises (ClientError "down")
        end.

Definition forecast_crashes : item → outcome :=
  λ it, match it with
        | observation => Raises (ClientError "down")
        | forecast => Raises (OtherException "ValueError" "bad payload")
        | forecast_hourly => Success
        end.

(** In the examples a coordinate is given by its rendering. *)
Definition example_str (c : string) : string := c.

(** ** The per-location configuration schema *)

(** [_INDIVIDUAL_SCHEMA] is a [vol.Schema] over a dictionary whose keys
    carry the markers [Required], [Inclusive] and [Optional].
    voluptuous is a third-party library and not part of the sources;
    what calling such a schema on a dictionary does is written out here
    as the library does it: the check of the groups of inclusion, then
    the validation of the keys and values present, extra keys being
    refused and required keys missing being reported. *)

(** The values a configuration mapping holds. *)
Inductive value : Type :=
  | VStr (s : string)
  | VNum (q : Q)
  | VBool (b : bool)
  | VNone.

(** The key markers of voluptuous used by the schema. *)
Inductive marker : Type :=
  | Required
  | Optional
  | Inclusive (group_of_inclusion : string) (msg : string).

(** One [marker(key): validator] line of a schema; the validator
    returns the validated value, or [None] where it raises
    [vol.Invalid]. *)
Record entry : Type := mkEntry {
  mark : marker;
  schema_key : string;
  validator : value → option value
}.

(** The errors a [vol.MultipleInvalid] collects. *)
Inductive Invalid : Type :=
  | InclusiveInvalid (msg : string) (path : list string)
  | RequiredFieldInvalid (path : list string)
  | ExtraKeysInvalid (path : list string)
  | ValueInvalid (path : list string).

Definition group_label (e : entry) : option string :=
  match mark e with
  | Inclusive g _ => Some g
  | _ => None
  end.

Definition group_msg (e : entry) : string :=
  match mark e with
  | Inclusive _ m => m
  | _ => ""
  end.

(** A list of labels with every label kept at its first place only. *)
Fixpoint first_occurrences (l : list string) : list string :=
  match l with
  | [] => []
  | x :: rest =>
      x :: List.filter (λ y, negb (String.eqb x y)) (first_occurrences rest)
  end.

(** The labels of the groups of inclusion of a schema, each once, in
    the order of their first key. *)
Definition groups_of_inclusion (schema : list entry) : list string :=
  first_occurrences (omap group_label schema).

(** The keys of the schema that belong to the group [label]. *)
Definition in_group (label : string) (e : entry) : bool :=
  match group_label e with
  | Some g => String.eqb g label
  | None => false
  end.

Definition group (label : string) (schema : list entry) : list entry :=
  List.filter (in_group label) schema.

Definition DEFAULT_INCLUSIVE_MSG (label : string) : string :=
  "some but not all values in the same group of inclusion '" +:+ label +:+ "'".

(** The message of the first key of the group that has one. *)
Definition inclusive_msg (label : string) (g : list entry) : string :=
  match List.find (λ e, negb (String.eqb (group_msg e) "")) g with
  | Some e => group_msg e
  | None => DEFAULT_INCLUSIVE_MSG label
  end.

(** The check of one group: some of its keys are in the data and some
    are not. *)
Definition group_violated (data : gmap string value) (g : list entry) : bool :=
  let included := map (λ e, bool_decide (is_Some (data !! schema_key e))) g in
  existsb id included && negb (forallb id included).

(** The loop over the groups of inclusion, which stops at the first
    group violated. *)
Fixpoint check_inclusion (data : gmap string value) (schema : list entry)
    (labels : list string) : list Invalid :=
  match labels with
  | [] => []
  | label :: rest =>
      if group_violated data (group label schema)
      then [InclusiveInvalid (inclusive_msg label (group label schema)) [label]]
      else check_inclusion data schema rest
  end.

(** One [key: value] pair of the data against the schema, extra keys
    being refused. *)
Definition validate_item (schema : list entry) (kv : string * value)
    : Invalid + string * value :=
  match List.find (λ e, String.eqb (schema_key e) kv.1) schema with
  | Some e =>
      match validator e kv.2 with
      | Some v => inr (kv.1, v)
      | None => inl (ValueInvalid [kv.1])
      end
  | None => inl (ExtraKeysInvalid [kv.1])
  end.

Definition is_required (e : entry) : bool :=
  match mark e with Required => true | _ => false end.

Definition missing_required (schema : list entry) (data : gmap string value)
    : list Invalid :=
  omap (λ e, if is_required e && bool_decide (data !! schema_key e = None)
             then Some (RequiredFieldInvalid [schema_key e]) else None)
    schema.

Definition lefts {A B} (l : list (A + B)) : list A :=
  omap (λ r, match r with inl a => Some a | inr _ => None end) l.

Definition rights {A B} (l : list (A + B)) : list B :=
  omap (λ r, match r with inl _ => None | inr b => Some b end) l.

(** The validation of the key and value pairs of the data. *)
Definition validate_mapping (schema : list entry) (data : gmap string value)
    : list Invalid + gmap string value :=
  let results := validate_item schema <$> map_to_list data in
  match lefts results ++ missing_required schema data with
  | [] => inr (list_to_map (rights results))
  | errors => inl errors
  end.

(** Calling [vol.Schema(schema)] on a dictionary: the groups of
    inclusion are checked first and a violation raises at once;
    otherwise keys and values are validated. *)
Definition validate_dict (schema : list entry) (data : gmap string value)
    : list Invalid + gmap string value :=
  match check_inclusion data schema (groups_of_inclusion schema) with
  | [] => validate_mapping schema data
  | errors => inl errors
  end.

(** Modelled from the spec: the configuration keys [CONF_API_KEY],
    [CONF_LATITUDE], [CONF_LONGITUDE] of [homeassistant.const] and
    [CONF_STATION] of [.const], none of which is among the sources; the
    names are those of the inbound config schema. *)
Definition CONF_API_KEY : string := "api_key".
Definition CONF_LATITUDE : string := "latitude".
Definition CONF_LONGITUDE : string := "longitude".
Definition CONF_STATION : string := "station".

(** The value validators [cv.string], [cv.latitude] and [cv.longitude]
    of [homeassistant.helpers.config_validation]. *)
Record config_validation : Type := mkCv {
  cv_string : value → option value;
  cv_latitude : value → option value;
  cv_longitude : value → option value
}.

Definition _INDIVIDUAL_SCHEMA (cv : config_validation) : list entry :=
  [ mkEntry Required CONF_API_KEY (cv_string cv);
    mkEntry (Inclusive "coordinates" "Latitude and longitude must exist together")
      CONF_LATITUDE (cv_latitude cv);
    mkEntry (Inclusive "coordinates" "Latitude and longitude must exist together")
      CONF_LONGITUDE (cv_longitude cv);
    mkEntry Optional CONF_STATION (cv_string cv) ].

(** Validators for the examples: strings pass [cv_string]; numbers
    within the range of a latitude, of a longitude, pass the other
    two. *)
Definition example_cv : config_validation :=
  mkCv (λ v, match v with VStr _ => Some v | _ => None end)
       (λ v, match v with
             | VNum q => if Qle_bool (-90) q && Qle_bool q 90 then Some v else None
             | _ => None
             end)
       (λ v, match v with
             | VNum q => if Qle_bool (-180) q && Qle_bool q 180 then Some v else None
             | _ => None
             end).

Definition config_without_longitude : gmap string value :=
  {[ "api_key" := VStr "k"; "latitude" := VNum 40 ]}.

Definition config_with_both : gmap string value :=
  {[ "api_key" := VStr "k"; "latitude" := VNum 40; "longitude" := VNum (-75) ]}.

Definition config_without_latitude : gmap string value :=
  {[ "api_key" := VStr "k"; "longitude" := VNum (-75) ]}.

(** ** The provider client, as far as the coordinator uses it *)

Section Nws.

(** The type of a latitude or longitude (a Python float) and its
    rendering inside an f-string. *)
Context {coord : Type} (str_coord : coord -> string).

(** The client session handed through to the client. *)
Context {ClientSession : Type}.

(** The integration's namespace, [DOMAIN] of [.const]. *)
Context (DOMAIN : string).

(** [SimpleNWS(latitude, longitude, api_key, session)]: the constructor
    stores its arguments; no station is bound yet. *)
Record SimpleNWS : Type := mkSimpleNWS {
  nws_latitude : coord;
  nws_longitude : coord;
  nws_api_key : string;
  nws_session : ClientSession;
  nws_station : option string
}.

Record NwsData : Type := mkNwsData {
  latitude : coord;
  longitude : coord;
  nws : SimpleNWS;
  update_observation_success : bool;
  update_forecast_success : bool;
  update_forecast_hourly_success : bool
}.

(** The coordinator together with its surroundings. *)
Record Sys : Type := mkSys {
  self : NwsData;
  world : World
}.

(** Computations that read and write [Sys] and may raise. *)
Definition M (A : Type) : Type := Sys -> result A * Sys.

Definition ret {A} (a : A) : M A := fun s => (Ret a, s).

Definition bind {A B} (k : A -> M B) (m : M A) : M B :=
  fun s => match m s with
           | (Ret a, s') => k a s'
           | (Raise e, s') => (Raise e, s')
           end.

#[local] Instance M_ret : MRet M := @ret.
#[local] Instance M_bind : MBind M := @bind.

(** [try: body  except <classes matched by handler> as err: handler err].
    An exception the handler does not match keeps propagating. *)
Definition try_except {A} (body : M A) (handler : exn -> option (M A)) : M A :=
  fun s => match body s with
           | (Ret a, s') => (Ret a, s')
           | (Raise e, s') =>
               match handler e with
               | Some h => h s'
               | None => (Raise e, s')
               end
           end.

Definition get_self : M NwsData := fun s => (Ret (self s), s).

Definition put_self (d : NwsData) : M unit :=
  fun s => (Ret tt, mkSys d (world s)).

Definition modify_world (f : World -> World) : M unit :=
  fun s => (Ret tt, mkSys (self s) (f (world s))).

Definition when (b : bool) (m : M unit) : M unit := if b then m else ret tt.

(** [_LOGGER.debug] and [_LOGGER.warning]. *)
Definition emit (r : LogRecord) (w : World) : World :=
  mkWorld (network w) (requests w) (log w ++ [r]) (signals w).

Definition logger_debug (m : string) (a : list string) : M unit :=
  modify_world (emit (mkLog DEBUG m a)).

Definition logger_warning (m : string) (a : list string) : M unit :=
  modify_world (emit (mkLog WARNING m a)).

(** [async_dispatcher_send(hass, signal)]. *)
Definition send (sig : string) (w : World) : World :=
  mkWorld (network w) (requests w) (log w) (signals w ++ [sig]).

Definition async_dispatcher_send (sig : string) : M unit :=
  modify_world (send sig).

(** Awaiting the client's update method for [it]: the request is made,
    and then either returns or raises as the provider answers. *)
Definition request (it : item) (w : World) : World :=
  mkWorld (network w) (requests w ++ [it]) (log w) (signals w).

Definition nws_update (it : item) : M unit :=
  modify_world (request it) ;;
  (fun s => match network (world s) it with
            | Success => (Ret tt, s)
            | Raises e => (Raise e, s)
            end) : M unit.

(** [%s] of a station name that may still be [None]. *)
Definition str_station (st : option string) : string :=
  match st with Some s => s | None => "None" end.

(** ** Identity strings *)

Definition base_unique_id (lat lon : coord) : string :=
  str_coord lat +:+ "_" +:+ str_coord lon.

Definition signal_unique_id (lat lon : coord) : string :=
  DOMAIN +:+ "_" +:+ base_unique_id lat lon.

(** ** The coordinator *)

(** [NwsData.__init__]. *)
Definition NwsData_init (lat lon : coord) (api_key : string)
    (websession : ClientSession) : NwsData :=
  let ha_api_key := api_key +:+ " homeassistant" in
  mkNwsData lat lon (mkSimpleNWS lat lon ha_api_key websession None)
    true true true.

(** The property [NwsData.station]. *)
Definition station (d : NwsData) : option string := nws_station (nws d).

(** [NwsData._async_update_item]. *)
Definition _async_update_item (update_call : M unit)
    (update_type : string) (station_name : option string)
    (previous_success : bool) : M bool :=
  try_except
    (logger_debug MSG_UPDATING [update_type; str_station station_name] ;;
     update_call ;;
     when (negb previous_success)
       (logger_warning MSG_SUCCESS [update_type; str_station station_name]) ;;
     ret true)
    (fun err =>
       if is_transient err then
         Some (when previous_success
                 (logger_warning MSG_ERROR
                    [update_type; str_station station_name; str_exn err]) ;;
               ret false)
       else None).

Definition set_observation_success (b : bool) : M unit :=
  d ← get_self ;
  put_self (mkNwsData (latitude d) (longitude d) (nws d)
              b (update_forecast_success d) (update_forecast_hourly_success d)).

Definition set_forecast_success (b : bool) : M unit :=
  d ← get_self ;
  put_self (mkNwsData (latitude d) (longitude d) (nws d)
              (update_observation_success d) b (update_forecast_hourly_success d)).

Definition set_forecast_hourly_success (b : bool) : M unit :=
  d ← get_self ;
  put_self (mkNwsData (latitude d) (longitude d) (nws d)
              (update_observation_success d) (update_forecast_success d) b).

(** [NwsData.async_update].  Each assignment evaluates the arguments of
    the call from the coordinator as it is at that point, awaits the
    item update, and stores what it returned. *)
Definition async_update : M unit :=
  d ← get_self ;
  b ← _async_update_item (nws_update observation) "observation"
         (station d) (update_observation_success d) ;
  set_observation_success b ;;
  d ← get_self ;
  b ← _async_update_item (nws_update forecast) "forecast"
         (station d) (update_forecast_success d) ;
  set_forecast_success b ;;
  d ← get_self ;
  b ← _async_update_item (nws_update forecast_hourly) "forecast_hourly"
         (station d) (update_forecast_hourly_success d) ;
  set_forecast_hourly_success b ;;
  d ← get_self ;
  async_dispatcher_send (signal_unique_id (latitude d) (longitude d)).

(** The success flag the coordinator keeps for an item. *)
Definition flag (it : item) (d : NwsData) : bool :=
  match it with
  | observation => update_observation_success d
  | forecast => update_forecast_success d
  | forecast_hourly => update_forecast_hourly_success d
  end.

(** ** The host's timer *)

(** The items fetched before [it] in a cycle. *)
Definition earlier (it : item) : list item :=
  match it with
  | observation => []
  | forecast => [observation]
  | forecast_hourly => [observation; forecast]
  end.

(** The cycle reaches the fetch of [it]: no earlier fetch raises an
    exception outside the transient category. *)
Definition attempted (net : item -> outcome) (it : item) : bool :=
  forallb (fun j => negb (is_fatal (net j))) (earlier it).

Definition set_network (net : item -> outcome) (s : Sys) : Sys :=
  mkSys (self s)
    (mkWorld net (requests (world s)) (log (world s)) (signals (world s))).

(** One firing of the timer while the provider answers as [net]: the
    callback [async_update] runs; an exception that escapes it is the
    host's to report, and the coordinator stays as the cycle left it. *)
Definition tick (net : item -> outcome) (s : Sys) : Sys :=
  snd (async_update (set_network net s)).

Definition run (nets : list (item -> outcome)) (s : Sys) : Sys :=
  fold_left (fun s net => tick net s) nets s.

(** What [async_set_station] leaves behind: the client is bound to the
    station [st]; nothing else of the coordinator changes. *)
Definition with_station (st : option string) (d : NwsData) : NwsData :=
  mkNwsData (latitude d) (longitude d)
    (mkSimpleNWS (nws_latitude (nws d)) (nws_longitude (nws d))
       (nws_api_key (nws d)) (nws_session (nws d)) st)
    (update_observation_success d) (update_forecast_success d)
    (update_forecast_hourly_success d).

Definition raise {A} (e : exn) : M A := fun s => (Raise e, s).

(** [NwsData.async_set_station]: the client, which answers
    [set_station] as [client] says, is awaited and then the list of
    nearby stations is logged at debug level. *)
Definition async_set_station {V} (client : V → station_answer) (station : V)
    : M unit :=
  match client station with
  | StationBound st stations =>
      d ← get_self ;
      put_self (with_station st d) ;;
      logger_debug "Nearby station list: %s" [stations]
  | StationRaises e => raise e
  end.

(** The coordinator fresh from its constructor, bound to station [st],
    in the surroundings [w]. *)
Definition fresh_coordinator (lat lon : coord) (api_key : string)
    (websession : ClientSession) (st : option string) (w : World) : Sys :=
  mkSys (with_station st (NwsData_init lat lon api_key websession)) w.

(** How many failure warnings, and how many recovery notices, the log
    holds for item [it]. *)
Definition errors (it : item) (s : Sys) : nat :=
  count_log (is_error_log it) (log (world s)).

Definition recoveries (it : item) (s : Sys) : nat :=
  count_log (is_recovery_log it) (log (world s)).

(** The fetch of [it] is reached in the cycle and fails with a
    transient error. *)
Definition fails_transiently (it : item) (net : item → outcome) : Prop :=
  attempted net it = true ∧ is_transient_failure (net it) = true.

(** ** Measures of a log and of a cycle *)

(** Any record at WARNING level. *)
Definition is_warning_level (r : LogRecord) : bool :=
  bool_decide (levelname r = WARNING).

(** How many records at WARNING level the log holds. *)
Definition warnings (s : Sys) : nat :=
  count_log is_warning_level (log (world s)).

(** The records at WARNING level that were logged for item [it], in
    the order of the log. *)
Definition warnings_about (it : item) (s : Sys) : list LogRecord :=
  List.filter (λ r, is_warning_level r && about it r) (log (world s)).

(** The failure warning and the recovery notice of [_async_update_item]
    as they are logged for item [it] at station [st]. *)
Definition error_record (it : item) (st : option string) (e : exn) : LogRecord :=
  mkLog WARNING MSG_ERROR [update_type it; str_station st; str_exn e].

Definition recovery_record (it : item) (st : option string) : LogRecord :=
  mkLog WARNING MSG_SUCCESS [update_type it; str_station st].

(** No fetch of the cycle raises outside the transient category. *)
Definition completes (net : item → outcome) : bool :=
  negb (is_fatal (net observation)) && negb (is_fatal (net forecast))
  && negb (is_fatal (net forecast_hourly)).

(** ** One item of a cycle in closed form *)

Definition set_flag (it : item) (b : bool) : M unit :=
  match it with
  | observation => set_observation_success b
  | forecast => set_forecast_success b
  | forecast_hourly => set_forecast_hourly_success b
  end.

(** One assignment of [async_update], for item [it]. *)
Definition update_item (it : item) : M unit :=
  d ← get_self ;
  b ← _async_update_item (nws_update it) (update_type it)
         (station d) (flag it d) ;
  set_flag it b.

Definition publish : M unit :=
  d ← get_self ;
  async_dispatcher_send (signal_unique_id (latitude d) (longitude d)).

Definition put_flag (it : item) (b : bool) (d : NwsData) : NwsData :=
  match it with
  | observation =>
      mkNwsData (latitude d) (longitude d) (nws d)
        b (update_forecast_success d) (update_forecast_hourly_success d)
  | forecast =>
      mkNwsData (latitude d) (longitude d) (nws d)
        (update_observation_success d) b (update_forecast_hourly_success d)
  | forecast_hourly =>
      mkNwsData (latitude d) (longitude d) (nws d)
        (update_observation_success d) (update_forecast_success d) b
  end.

(** The records [_async_update_item] logs after the debug line. *)
Definition edge_log (it : item) (st : option string) (prev : bool)
    (o : outcome) : list LogRecord :=
  match o with
  | Success =>
      if prev then []
      else [mkLog WARNING MSG_SUCCESS [update_type it; str_station st]]
  | Raises e =>
      if is_transient e && prev
      then [mkLog WARNING MSG_ERROR [update_type it; str_station st; str_exn e]]
      else []
  end.

Definition world_after (it : item) (d : NwsData) (w : World) : World :=
  mkWorld (network w) (requests w ++ [it])
    ((log w ++ [mkLog DEBUG MSG_UPDATING [update_type it; str_station (station d)]])
       ++ edge_log it (station d) (flag it d) (network w it))
    (signals w).

(** The system after the assignment for [it] went through, and after
    its fetch raised outside the transient category. *)
Definition after (it : item) (s : Sys) : Sys :=
  mkSys (put_flag it (is_success (network (world s) it)) (self s))
    (world_after it (self s) (world s)).

Definition aborted (it : item) (s : Sys) : Sys :=
  mkSys (self s) (world_after it (self s) (world s)).

Definition published (s : Sys) : Sys :=
  mkSys (self s)
    (send (signal_unique_id (latitude (self s)) (longitude (self s))) (world s)).

(** Every cycle goes one of these ways. *)
Inductive cycle_shape (s : Sys) : result unit * Sys → Prop :=
  | CycleCompletes :
      (∀ it, is_fatal (network (world s) it) = false) →
      cycle_shape s
        (Ret tt, published (after forecast_hourly (after forecast (after observation s))))
  | CycleRaisesObservation e :
      network (world s) observation = Raises e → is_transient e = false →
      cycle_shape s (Raise e, aborted observation s)
  | CycleRaisesForecast e :
      is_fatal (network (world s) observation) = false →
      network (world s) forecast = Raises e → is_transient e = false →
      cycle_shape s (Raise e, aborted forecast (after observation s))
  | CycleRaisesForecastHourly e :
      is_fatal (network (world s) observation) = false →
      is_fatal (network (world s) forecast) = false →
      network (world s) forecast_hourly = Raises e → is_transient e = false →
      cycle_shape s
        (Raise e, aborted forecast_hourly (after forecast (after observation s))).

(** ** Counting log records *)

Lemma count_log_snoc p l r :
  count_log p (l ++ [r]) = count_log p l + (if p r then 1 else 0).
Proof.
  unfold count_log. rewrite List.filter_app, length_app. simpl.
  destruct (p r); reflexivity.
Qed.

Lemma count_log_app p l1 l2 :
  count_log p (l1 ++ l2) = count_log p l1 + count_log p l2.
Proof. unfold count_log. by rewrite List.filter_app, length_app. Qed.

#[local] Arguments count_log : simpl never.

Ltac count_edge :=
  match goal with
  | |- context [count_log ?p (log (world ?s))] =>
      generalize (count_log p (log (world s))); intros ?
  end;
  unfold count_log, is_error_log, is_recovery_log, about; simpl; lia.

Ltac cycle_arith :=
  cbn;
  repeat (case_bool_decide; try congruence);
  rewrite ?andb_true_r, ?andb_false_r; cbn;
  repeat split; try reflexivity; try lia.

(** ** The cycle, item by item *)

Lemma async_update_items s :
  async_update s =
    (update_item observation ;; update_item forecast ;;
     update_item forecast_hourly ;; publish) s.
Proof.
  unfold async_update, update_item, publish, set_flag,
    set_observation_success, set_forecast_success,
    set_forecast_hourly_success, put_self, mbind, M_bind, bind, get_self.
  cbn.
  do 3 (match goal with
        | |- context [_async_update_item ?c ?t ?n ?p ?x] =>
            destruct (_async_update_item c t n p x) as [[?|?] ?]; cbn;
            [|reflexivity]
        end).
  reflexivity.
Qed.

Lemma update_item_eq it s :
  update_item it s =
    match network (world s) it with
    | Success =>
        (Ret tt, mkSys (put_flag it true (self s)) (world_after it (self s) (world s)))
    | Raises e =>
        if is_transient e
        then (Ret tt, mkSys (put_flag it false (self s))
                        (world_after it (self s) (world s)))
        else (Raise e, mkSys (self s) (world_after it (self s) (world s)))
    end.
Proof.
  destruct s as [d [net rq lg sg]].
  unfold update_item, _async_update_item, try_except, nws_update, when,
    logger_debug, logger_warning, modify_world, get_self,
    mbind, M_bind, bind, mret, M_ret, ret, world_after, edge_log.
  cbn.
  destruct (net it) as [|e]; [|destruct (is_transient e)];
    destruct (flag it d); cbn; rewrite ?app_nil_r;
    destruct it; reflexivity.
Qed.

Lemma update_item_ok it s :
  is_fatal (network (world s) it) = false →
  update_item it s = (Ret tt, after it s).
Proof.
  intros H. rewrite update_item_eq. unfold after, is_fatal in *.
  destruct (network (world s) it) as [|e]; [reflexivity|].
  destruct (is_transient e); [reflexivity|discriminate].
Qed.

Lemma update_item_raise it s e :
  network (world s) it = Raises e → is_transient e = false →
  update_item it s = (Raise e, aborted it s).
Proof.
  intros H T. rewrite update_item_eq, H, T. reflexivity.
Qed.

Lemma network_after it s : network (world (after it s)) = network (world s).
Proof. reflexivity. Qed.

(** The four ways a cycle can go. *)
Lemma cycle_completes s :
  (∀ it, is_fatal (network (world s) it) = false) →
  async_update s =
    (Ret tt, published (after forecast_hourly (after forecast (after observation s)))).
Proof.
  intros H. rewrite async_update_items. unfold mbind, M_bind, bind.
  rewrite update_item_ok by apply H.
  rewrite update_item_ok by (rewrite network_after; apply H).
  rewrite update_item_ok by (rewrite !network_after; apply H).
  reflexivity.
Qed.

Lemma cycle_raises_observation s e :
  network (world s) observation = Raises e → is_transient e = false →
  async_update s = (Raise e, aborted observation s).
Proof.
  intros H T. rewrite async_update_items. unfold mbind, M_bind, bind.
  rewrite (update_item_raise _ _ e) by assumption. reflexivity.
Qed.

Lemma cycle_raises_forecast s e :
  is_fatal (network (world s) observation) = false →
  network (world s) forecast = Raises e → is_transient e = false →
  async_update s = (Raise e, aborted forecast (after observation s)).
Proof.
  intros H1 H T. rewrite async_update_items. unfold mbind, M_bind, bind.
  rewrite update_item_ok by assumption.
  rewrite (update_item_raise _ _ e) by assumption. reflexivity.
Qed.

Lemma cycle_raises_forecast_hourly s e :
  is_fatal (network (world s) observation) = false →
  is_fatal (network (world s) forecast) = false →
  network (world s) forecast_hourly = Raises e → is_transient e = false →
  async_update s =
    (Raise e, aborted forecast_hourly (after forecast (after observation s))).
Proof.
  intros H1 H2 H T. rewrite async_update_items. unfold mbind, M_bind, bind.
  rewrite update_item_ok by assumption.
  rewrite update_item_ok by assumption.
  rewrite (update_item_raise _ _ e) by assumption. reflexivity.
Qed.

Lemma is_fatal_cases o :
  is_fatal o = false ∨ ∃ e, o = Raises e ∧ is_transient e = false.
Proof.
  destruct o as [|e]; [left; reflexivity|].
  unfold is_fatal. destruct (is_transient e) eqn:T; [left; reflexivity|].
  right. exists e. split; [reflexivity|assumption].
Qed.

Lemma async_update_shape s : cycle_shape s (async_update s).
Proof.
  destruct (is_fatal_cases (network (world s) observation)) as [H1|(e & H1 & T1)].
  2: { rewrite (cycle_raises_observation s e) by assumption.
       by apply CycleRaisesObservation. }
  destruct (is_fatal_cases (network (world s) forecast)) as [H2|(e & H2 & T2)].
  2: { rewrite (cycle_raises_forecast s e) by assumption.
       by apply CycleRaisesForecast. }
  destruct (is_fatal_cases (network (world s) forecast_hourly)) as [H3|(e & H3 & T3)].
  2: { rewrite (cycle_raises_forecast_hourly s e) by assumption.
       by apply CycleRaisesForecastHourly. }
  assert (H : ∀ it, is_fatal (network (world s) it) = false)
    by (intros []; assumption).
  rewrite cycle_completes by assumption. by apply CycleCompletes.
Qed.

(** ** What each step leaves of the system *)

Lemma requests_after it s :
  requests (world (after it s)) = requests (world s) ++ [it].
Proof. reflexivity. Qed.

Lemma requests_aborted it s :
  requests (world (aborted it s)) = requests (world s) ++ [it].
Proof. reflexivity. Qed.

Lemma requests_published s : requests (world (published s)) = requests (world s).
Proof. reflexivity. Qed.

Lemma signals_after it s : signals (world (after it s)) = signals (world s).
Proof. reflexivity. Qed.

Lemma signals_aborted it s : signals (world (aborted it s)) = signals (world s).
Proof. reflexivity. Qed.

Lemma signals_published s :
  signals (world (published s)) =
    signals (world s) ++ [signal_unique_id (latitude (self s)) (longitude (self s))].
Proof. reflexivity. Qed.

Lemma latitude_after it s : latitude (self (after it s)) = latitude (self s).
Proof. by destruct it. Qed.

Lemma longitude_after it s : longitude (self (after it s)) = longitude (self s).
Proof. by destruct it. Qed.

Lemma flag_after it j s :
  flag it (self (after j s)) =
    if bool_decide (it = j) then is_success (network (world s) j)
    else flag it (self s).
Proof. by destruct it, j. Qed.

Lemma flag_aborted it j s : flag it (self (aborted j s)) = flag it (self s).
Proof. reflexivity. Qed.

Lemma flag_published it s : flag it (self (published s)) = flag it (self s).
Proof. reflexivity. Qed.

Lemma errors_after it j s :
  errors it (after j s) =
    errors it s +
    (if bool_decide (it = j) && flag j (self s)
        && is_transient_failure (network (world s) j) then 1 else 0).
Proof.
  unfold errors, after, world_after, edge_log, is_transient_failure. cbn.
  rewrite count_log_app, count_log_snoc.
  destruct (network (world s) j) as [|e]; [|destruct (is_transient e)];
    destruct (flag j (self s)); destruct it, j; count_edge.
Qed.

Lemma recoveries_after it j s :
  recoveries it (after j s) =
    recoveries it s +
    (if bool_decide (it = j) && negb (flag j (self s))
        && is_success (network (world s) j) then 1 else 0).
Proof.
  unfold recoveries, after, world_after, edge_log. cbn.
  rewrite count_log_app, count_log_snoc.
  destruct (network (world s) j) as [|e]; [|destruct (is_transient e)];
    destruct (flag j (self s)); destruct it, j; count_edge.
Qed.

Lemma errors_aborted it j s :
  is_fatal (network (world s) j) = true →
  errors it (aborted j s) = errors it s.
Proof.
  unfold errors, aborted, world_after, edge_log, is_fatal. cbn.
  rewrite count_log_app, count_log_snoc.
  destruct (network (world s) j) as [|e]; [discriminate|].
  destruct (is_transient e); [discriminate|].
  intros _. destruct it, j; count_edge.
Qed.

Lemma recoveries_aborted it j s :
  is_fatal (network (world s) j) = true →
  recoveries it (aborted j s) = recoveries it s.
Proof.
  unfold recoveries, aborted, world_after, edge_log, is_fatal. cbn.
  rewrite count_log_app, count_log_snoc.
  destruct (network (world s) j) as [|e]; [discriminate|].
  destruct (is_transient e); [discriminate|].
  intros _. destruct it, j; count_edge.
Qed.

Lemma errors_published it s : errors it (published s) = errors it s.
Proof. reflexivity. Qed.

Lemma recoveries_published it s : recoveries it (published s) = recoveries it s.
Proof. reflexivity. Qed.

Lemma raises_fatal o e : o = Raises e → is_transient e = false → is_fatal o = true.
Proof. intros -> T. unfold is_fatal. by rewrite T. Qed.

Lemma nws_after it s : nws (self (after it s)) = nws (self s).
Proof. by destruct it. Qed.

Lemma self_aborted it s : self (aborted it s) = self s.
Proof. reflexivity. Qed.

Lemma self_published s : self (published s) = self s.
Proof. reflexivity. Qed.

Lemma network_published s : network (world (published s)) = network (world s).
Proof. reflexivity. Qed.

Lemma network_aborted it s : network (world (aborted it s)) = network (world s).
Proof. reflexivity. Qed.

(** A step logs at WARNING level exactly when it changes the flag. *)
Lemma warnings_after it s :
  warnings (after it s) =
    warnings s +
    (if negb (is_fatal (network (world s) it))
        && negb (Bool.eqb (flag it (self s)) (is_success (network (world s) it)))
     then 1 else 0).
Proof.
  unfold warnings, after, world_after, edge_log, is_fatal. cbn.
  rewrite count_log_app, count_log_snoc.
  destruct (network (world s) it) as [|e]; [|destruct (is_transient e)];
    destruct (flag it (self s)); cbn;
    generalize (count_log is_warning_level (log (world s))); intros n;
    unfold count_log, is_warning_level; simpl; lia.
Qed.

Lemma warnings_aborted it s :
  is_fatal (network (world s) it) = true →
  warnings (aborted it s) = warnings s.
Proof.
  unfold warnings, aborted, world_after, edge_log, is_fatal. cbn.
  rewrite count_log_app, count_log_snoc.
  destruct (network (world s) it) as [|e]; [discriminate|].
  destruct (is_transient e); [discriminate|]. intros _.
  generalize (count_log is_warning_level (log (world s))); intros n.
  unfold count_log, is_warning_level; simpl; lia.
Qed.

Lemma warnings_published s : warnings (published s) = warnings s.
Proof. reflexivity. Qed.

Lemma self_after it s :
  self (after it s) = put_flag it (is_success (network (world s) it)) (self s).
Proof. reflexivity. Qed.

Lemma put_flag_same it b d : flag it d = b → put_flag it b d = d.
Proof. intros <-. by destruct d, it. Qed.

Lemma warnings_set_network net s : warnings (set_network net s) = warnings s.
Proof. reflexivity. Qed.

Lemma signals_set_network net s :
  signals (world (set_network net s)) = signals (world s).
Proof. reflexivity. Qed.

Lemma station_after it s : station (self (after it s)) = station (self s).
Proof. by destruct it. Qed.

(** The WARNING records a step adds for an item are those of its edge,
    when the step is the item's own. *)
Lemma warnings_about_after it j s :
  warnings_about it (after j s) =
    warnings_about it s ++
    (if bool_decide (it = j)
     then edge_log j (station (self s)) (flag j (self s)) (network (world s) j)
     else []).
Proof.
  unfold warnings_about, after, world_after, edge_log. cbn [world log self].
  rewrite !List.filter_app.
  destruct (network (world s) j) as [|e]; [|destruct (is_transient e)];
    destruct (flag j (self s)); destruct it, j; cbn;
    by rewrite ?app_nil_r.
Qed.

Lemma warnings_about_aborted it j s :
  is_fatal (network (world s) j) = true →
  warnings_about it (aborted j s) = warnings_about it s.
Proof.
  unfold warnings_about, aborted, world_after, edge_log, is_fatal.
  cbn [world log self]. rewrite !List.filter_app.
  destruct (network (world s) j) as [|e]; [discriminate|].
  destruct (is_transient e); [discriminate|]. intros _.
  destruct it, j; cbn; by rewrite ?app_nil_r.
Qed.

Lemma warnings_about_published it s :
  warnings_about it (published s) = warnings_about it s.
Proof. reflexivity. Qed.

#[local] Opaque after aborted published.

(** ** One cycle *)

(** C1.  A call of [async_update] in which every fetch either succeeds
    or fails with a transient error (all three may fail) returns
    normally and sends exactly one signal through the dispatcher, whose
    key is [DOMAIN], the latitude and the longitude joined by
    underscores. *)
Theorem update_publishes_exactly_once s :
  (∀ it, is_fatal (network (world s) it) = false) →
  fst (async_update s) = Ret tt ∧
  signals (world (snd (async_update s))) =
    signals (world s) ++
    [DOMAIN +:+ "_" +:+ str_coord (latitude (self s)) +:+ "_"
       +:+ str_coord (longitude (self s))].
Proof.
  intros H. rewrite cycle_completes by assumption. cbn [fst snd].
  split; [reflexivity|].
  rewrite signals_published, !signals_after, !latitude_after, !longitude_after.
  reflexivity.
Qed.

(** C3.  When the fetch of an item that the cycle reaches raises an
    exception outside the transient category, [async_update] raises
    that exception and the requests made in the cycle stop at that
    item; and whatever [async_update] raises is never a transient
    exception. *)
Theorem unrecognized_exception_propagates s :
  (∀ it e,
     attempted (network (world s)) it = true →
     network (world s) it = Raises e →
     is_transient e = false →
     fst (async_update s) = Raise e ∧
     requests (world (snd (async_update s))) =
       requests (world s) ++ earlier it ++ [it]) ∧
  (∀ e, fst (async_update s) = Raise e → is_transient e = false).
Proof.
  split.
  - intros it e A H T. pose proof (raises_fatal _ _ H T) as F.
    unfold attempted in A.
    destruct it; cbn in A.
    + rewrite (cycle_raises_observation s e) by assumption.
      split; reflexivity.
    + apply andb_prop in A as [A1 _]. apply negb_true_iff in A1.
      rewrite (cycle_raises_forecast s e) by assumption. cbn [fst snd].
      rewrite requests_aborted, requests_after, <- app_assoc.
      split; reflexivity.
    + apply andb_prop in A as [A1 A2]. apply andb_prop in A2 as [A2 _].
      apply negb_true_iff in A1, A2.
      rewrite (cycle_raises_forecast_hourly s e) by assumption. cbn [fst snd].
      rewrite requests_aborted, !requests_after, <- !app_assoc.
      split; reflexivity.
  - intros e. destruct (async_update_shape s); cbn [fst]; congruence.
Qed.

(** C4, as the code has it.  When the observation fetch fails with a
    transient error, the forecast fetch is still made in the same
    cycle, and the hourly-forecast fetch as well unless the forecast
    fetch raises an exception outside the transient category; the
    requests are made in the order observation, forecast,
    hourly forecast. *)
Theorem observation_failure_is_isolated s :
  is_transient_failure (network (world s) observation) = true →
  requests (world (snd (async_update s))) =
    requests (world s) ++ observation :: forecast ::
      (if is_fatal (network (world s) forecast) then [] else [forecast_hourly]).
Proof.
  intros H.
  assert (F : is_fatal (network (world s) observation) = false).
  { unfold is_fatal, is_transient_failure in *.
    destruct (network (world s) observation) as [|e]; [reflexivity|].
    by rewrite H. }
  destruct (async_update_shape s) as [Hall|e He T|e _ He T|e _ H2 He T];
    cbn [snd].
  - rewrite (Hall forecast).
    rewrite requests_published, !requests_after, <- !app_assoc. reflexivity.
  - rewrite (raises_fatal _ _ He T) in F. discriminate.
  - rewrite (raises_fatal _ _ He T).
    rewrite requests_aborted, requests_after, <- !app_assoc. reflexivity.
  - rewrite H2.
    rewrite requests_aborted, !requests_after, <- !app_assoc. reflexivity.
Qed.

(** C5.  After a cycle that completes, the flag of each item is the
    outcome of that item's fetch in the cycle; so two completed cycles
    in which an item's fetch has the same outcome leave that item's
    flag the same, whatever the other two fetches did and whatever the
    flags were before. *)
Theorem flags_reflect_latest_attempt s1 s2 it :
  fst (async_update s1) = Ret tt →
  fst (async_update s2) = Ret tt →
  flag it (self (snd (async_update s1))) = is_success (network (world s1) it) ∧
  (network (world s1) it = network (world s2) it →
   flag it (self (snd (async_update s1))) =
   flag it (self (snd (async_update s2)))).
Proof.
  assert (K : ∀ s, fst (async_update s) = Ret tt →
            flag it (self (snd (async_update s))) = is_success (network (world s) it)).
  { intros s. destruct (async_update_shape s); cbn [fst snd]; try discriminate.
    intros _. rewrite flag_published, !flag_after, !network_after.
    by destruct it. }
  intros H1 H2. split; [by apply K|].
  intros E. rewrite !K by assumption. by rewrite E.
Qed.

(** C8, as the code has it.  When the fetch of an item that the cycle
    reaches raises an exception outside the transient category, the
    flag of that item and the flags of the items after it keep their
    previous values, the flags of the items before it have been set to
    the outcomes of their own fetches, and no signal is sent. *)
Theorem aborted_cycle_keeps_later_flags s it e :
  attempted (network (world s)) it = true →
  network (world s) it = Raises e →
  is_transient e = false →
  flag it (self (snd (async_update s))) = flag it (self s) ∧
  (∀ j, In it (earlier j) →
        flag j (self (snd (async_update s))) = flag j (self s)) ∧
  (∀ j, In j (earlier it) →
        flag j (self (snd (async_update s))) = is_success (network (world s) j)) ∧
  signals (world (snd (async_update s))) = signals (world s).
Proof.
  intros A H T. unfold attempted in A.
  destruct it; cbn in A.
  - rewrite (cycle_raises_observation s e) by assumption. cbn [snd].
    split; [|split; [|split]].
    + apply flag_aborted.
    + intros j _. apply flag_aborted.
    + intros j [].
    + apply signals_aborted.
  - apply andb_prop in A as [A1 _]. apply negb_true_iff in A1.
    rewrite (cycle_raises_forecast s e) by assumption. cbn [snd].
    split; [|split; [|split]].
    + by rewrite flag_aborted, flag_after.
    + intros j Hj. rewrite flag_aborted, flag_after.
      destruct j; cbn in Hj; try reflexivity; intuition congruence.
    + intros j Hj. rewrite flag_aborted, flag_after.
      destruct j; cbn in Hj; try reflexivity; intuition congruence.
    + by rewrite signals_aborted, signals_after.
  - apply andb_prop in A as [A1 A2]. apply andb_prop in A2 as [A2 _].
    apply negb_true_iff in A1, A2.
    rewrite (cycle_raises_forecast_hourly s e) by assumption. cbn [snd].
    split; [|split; [|split]].
    + by rewrite flag_aborted, !flag_after.
    + intros j Hj. destruct j; cbn in Hj; intuition congruence.
    + intros j Hj. rewrite flag_aborted, !flag_after, !network_after.
      destruct j; cbn in Hj; try reflexivity; intuition congruence.
    + by rewrite signals_aborted, !signals_after.
Qed.

(** ** Cycle after cycle *)

(** What one cycle does to one item: when its fetch is reached and does
    not raise outside the transient category, the flag becomes the
    outcome and a record is logged on a change of the flag only;
    otherwise flag and records stay. *)
Lemma tick_item net s it :
  if attempted net it && negb (is_fatal (net it)) then
    flag it (self (tick net s)) = is_success (net it) ∧
    errors it (tick net s) =
      errors it s +
      (if flag it (self s) && is_transient_failure (net it) then 1 else 0) ∧
    recoveries it (tick net s) =
      recoveries it s +
      (if negb (flag it (self s)) && is_success (net it) then 1 else 0)
  else
    flag it (self (tick net s)) = flag it (self s) ∧
    errors it (tick net s) = errors it s ∧
    recoveries it (tick net s) = recoveries it s.
Proof.
  unfold tick, attempted.
  remember (set_network net s) as s0 eqn:E0.
  assert (N : network (world s0) = net) by (subst; reflexivity).
  assert (S : self s0 = self s) by (subst; reflexivity).
  assert (Er : errors it s0 = errors it s) by (subst; reflexivity).
  assert (Rc : recoveries it s0 = recoveries it s) by (subst; reflexivity).
  clear E0. rewrite <- N, <- S, <- Er, <- Rc. clear N S Er Rc s net.
  destruct (async_update_shape s0) as [Hall|e He T|e H1 He T|e H1 H2 He T];
    cbn [snd].
  - rewrite flag_published, errors_published, recoveries_published.
    rewrite !flag_after, !errors_after, !recoveries_after, !flag_after,
      !network_after.
    pose proof (Hall observation). pose proof (Hall forecast).
    pose proof (Hall forecast_hourly).
    destruct it; cbn; rewrite ?H, ?H0, ?H1; cycle_arith.
  - pose proof (raises_fatal _ _ He T) as F.
    rewrite flag_aborted, errors_aborted, recoveries_aborted by assumption.
    destruct it; cbn; rewrite ?F; cycle_arith.
  - pose proof (raises_fatal _ _ He T) as F.
    rewrite flag_aborted, errors_aborted, recoveries_aborted
      by (rewrite ?network_after; assumption).
    rewrite !flag_after, !errors_after, !recoveries_after.
    destruct it; cbn; rewrite ?H1, ?F; cycle_arith.
  - pose proof (raises_fatal _ _ He T) as F.
    rewrite flag_aborted, errors_aborted, recoveries_aborted
      by (rewrite ?network_after; assumption).
    rewrite !flag_after, !errors_after, !recoveries_after, !flag_after,
      !network_after.
    destruct it; cbn; rewrite ?H1, ?H2, ?F; cycle_arith.
Qed.

(** The WARNING records one cycle adds for one item: those of the
    item's edge when its fetch is reached and does not raise outside
    the transient category, none otherwise; and the station stays. *)
Lemma tick_warnings_about net s it :
  warnings_about it (tick net s) =
    warnings_about it s ++
    (if attempted net it && negb (is_fatal (net it))
     then edge_log it (station (self s)) (flag it (self s)) (net it)
     else []) ∧
  station (self (tick net s)) = station (self s).
Proof.
  unfold tick, attempted.
  remember (set_network net s) as s0 eqn:E0.
  assert (N : network (world s0) = net) by (subst; reflexivity).
  assert (S : self s0 = self s) by (subst; reflexivity).
  assert (W : warnings_about it s0 = warnings_about it s)
    by (subst; reflexivity).
  clear E0. rewrite <- N, <- S, <- W. clear N S W s net.
  destruct (async_update_shape s0) as [Hall|e He T|e H1 He T|e H1 H2 He T];
    cbn [snd].
  - rewrite warnings_about_published, !warnings_about_after.
    rewrite !station_after, !flag_after, !network_after.
    rewrite self_published, !station_after.
    pose proof (Hall observation) as F1. pose proof (Hall forecast) as F2.
    pose proof (Hall forecast_hourly) as F3.
    split; [|done].
    destruct it; cbn; rewrite ?F1, ?F2, ?F3; cbn;
      repeat (case_bool_decide; try congruence);
      by rewrite ?app_nil_r.
  - pose proof (raises_fatal _ _ He T) as F.
    rewrite warnings_about_aborted by assumption.
    rewrite self_aborted. split; [|done].
    destruct it; cbn; rewrite ?F; cbn; by rewrite ?andb_false_r, ?app_nil_r.
  - pose proof (raises_fatal _ _ He T) as F.
    rewrite warnings_about_aborted by (rewrite ?network_after; assumption).
    rewrite warnings_about_after, self_aborted, station_after.
    split; [|done].
    destruct it; cbn; rewrite ?H1, ?F; cbn;
      repeat (case_bool_decide; try congruence);
      by rewrite ?app_nil_r.
  - pose proof (raises_fatal _ _ He T) as F.
    rewrite warnings_about_aborted by (rewrite ?network_after; assumption).
    rewrite !warnings_about_after, self_aborted.
    rewrite !station_after, !flag_after, !network_after.
    split; [|done].
    destruct it; cbn; rewrite ?H1, ?H2, ?F; cbn;
      repeat (case_bool_decide; try congruence);
      by rewrite ?app_nil_r.
Qed.

Lemma run_app nets1 nets2 s : run (nets1 ++ nets2) s = run nets2 (run nets1 s).
Proof. unfold run. apply fold_left_app. Qed.

Lemma run_cons net nets s : run (net :: nets) s = run nets (tick net s).
Proof. reflexivity. Qed.

Lemma transient_not_fatal o : is_transient_failure o = true → is_fatal o = false.
Proof.
  unfold is_transient_failure, is_fatal.
  destruct o as [|e]; [done|]. by intros ->.
Qed.

Lemma transient_not_success o : is_transient_failure o = true → is_success o = false.
Proof. by destruct o. Qed.

Lemma tick_failure it net s :
  fails_transiently it net →
  flag it (self (tick net s)) = false ∧
  errors it (tick net s) = errors it s + (if flag it (self s) then 1 else 0) ∧
  recoveries it (tick net s) = recoveries it s.
Proof.
  intros [A F]. pose proof (tick_item net s it) as H.
  rewrite A, (transient_not_fatal _ F), F, (transient_not_success _ F) in H.
  cbn in H. rewrite andb_true_r, andb_false_r in H.
  destruct H as (-> & -> & ->). repeat split; lia.
Qed.

Lemma tick_success it net s :
  attempted net it = true → net it = Success →
  flag it (self (tick net s)) = true ∧
  errors it (tick net s) = errors it s ∧
  recoveries it (tick net s) =
    recoveries it s + (if flag it (self s) then 0 else 1).
Proof.
  intros A F. pose proof (tick_item net s it) as H.
  rewrite A, F in H. cbn in H. rewrite andb_true_r, andb_false_r in H.
  destruct H as (-> & -> & ->). destruct (flag it (self s)); cbn; repeat split; lia.
Qed.

(** While an item keeps failing, nothing more is logged about it. *)
Lemma run_still_failing it nets s :
  Forall (fails_transiently it) nets →
  flag it (self s) = false →
  flag it (self (run nets s)) = false ∧
  errors it (run nets s) = errors it s ∧
  recoveries it (run nets s) = recoveries it s.
Proof.
  intros H. revert s. induction H as [|net nets Hnet _ IH]; intros s Hs.
  - by cbn.
  - rewrite run_cons.
    destruct (tick_failure it net s Hnet) as (F & E & R).
    destruct (IH _ F) as (-> & -> & ->).
    rewrite E, R, Hs. repeat split; lia.
Qed.

(** A flag that is down was put down by a transient failure. *)
Lemma flag_down_history it nets s :
  flag it (self (run nets s)) = false →
  flag it (self s) = false ∨
  ∃ pre net post, nets = pre ++ net :: post ∧ fails_transiently it net.
Proof.
  revert s. induction nets as [|net nets IH]; intros s H.
  - by left.
  - rewrite run_cons in H. destruct (IH _ H) as [F|(pre & n & post & -> & Hn)].
    + pose proof (tick_item net s it) as T.
      destruct (attempted net it) eqn:A; cbn in T.
      * destruct (is_fatal (net it)) eqn:Fa; cbn in T.
        -- left. destruct T as (T & _). congruence.
        -- right. exists [], net, nets. split; [reflexivity|].
           split; [assumption|].
           destruct T as (T & _). rewrite F in T.
           unfold is_fatal, is_transient_failure in *.
           destruct (net it) as [|e]; [discriminate|].
           by apply negb_false_iff in Fa.
      * left. destruct T as (T & _). congruence.
    + right. exists (net :: pre), n, post. by split.
Qed.

(** While an item keeps failing, no WARNING record is logged for it,
    and the station stays. *)
Lemma run_still_silent it nets s :
  Forall (fails_transiently it) nets →
  flag it (self s) = false →
  warnings_about it (run nets s) = warnings_about it s ∧
  station (self (run nets s)) = station (self s).
Proof.
  intros H. revert s. induction H as [|net nets Hnet _ IH]; intros s Hs.
  - by cbn.
  - rewrite run_cons.
    destruct (tick_failure it net s Hnet) as (F & _ & _).
    destruct (IH _ F) as (-> & ->).
    destruct (tick_warnings_about net s it) as (-> & ->).
    destruct Hnet as [A T]. rewrite A, (transient_not_fatal _ T), Hs. cbn.
    unfold edge_log, is_transient_failure in *.
    destruct (net it) as [|e]; [discriminate|].
    rewrite andb_false_r. by rewrite app_nil_r.
Qed.

(** C2.  Take any item whose flag is up (as it is at construction), let
    its fetch be reached and fail with a transient error in a first
    cycle and in any number of further consecutive cycles, and then be
    reached and succeed in the next.
    The failure warning for the item ("Error updating ...") is logged
    exactly once, in the first failing cycle, and the recovery notice
    ("Success updating ...") exactly once, in the succeeding cycle,
    however many failing cycles there are and whatever the other two
    fetches do.  These two are all that is logged at WARNING level for
    the item: the records at that level about it that the run adds are
    the failure warning, with the error of the first failure, then the
    recovery notice, and nothing else; the first failing cycle adds
    the failure warning alone and the further failing cycles add
    nothing. *)
Theorem one_warning_one_recovery it first more ok s :
  flag it (self s) = true →
  Forall (fails_transiently it) (first :: more) →
  attempted ok it = true →
  ok it = Success →
  errors it (tick first s) = errors it s + 1 ∧
  errors it (run (first :: more ++ [ok]) s) = errors it s + 1 ∧
  recoveries it (run (first :: more) s) = recoveries it s ∧
  recoveries it (run (first :: more ++ [ok]) s) = recoveries it s + 1 ∧
  ∃ e,
    first it = Raises e ∧
    warnings_about it (tick first s) =
      warnings_about it s ++ [error_record it (station (self s)) e] ∧
    warnings_about it (run (first :: more) s) =
      warnings_about it s ++ [error_record it (station (self s)) e] ∧
    warnings_about it (run (first :: more ++ [ok]) s) =
      warnings_about it s ++
      [error_record it (station (self s)) e;
       recovery_record it (station (self s))].
Proof.
  intros Hs Hfails Hok Eok.
  apply Forall_cons in Hfails as [Hfirst Hmore].
  destruct (tick_failure it first s Hfirst) as (F1 & E1 & R1).
  rewrite Hs in E1.
  destruct (run_still_failing it more _ Hmore F1) as (F & E & R).
  destruct (tick_success it ok (run more (tick first s)) Hok Eok) as (_ & E' & R').
  rewrite F in R'.
  destruct (tick_warnings_about first s it) as (W1 & S1).
  destruct (run_still_silent it more _ Hmore F1) as (W & S).
  destruct (tick_warnings_about ok (run more (tick first s)) it) as (W' & _).
  rewrite Hok, Eok, F, S, S1 in W'. cbn in W'.
  destruct Hfirst as [A T]. rewrite A, (transient_not_fatal _ T), Hs in W1.
  cbn in W1. unfold is_transient_failure in T.
  destruct (first it) as [|e] eqn:Efirst; [discriminate|].
  cbn in W1. rewrite T in W1. cbn in W1.
  rewrite !run_cons, run_app. cbn [run fold_left].
  fold (run more (tick first s)).
  rewrite E', R', E, R, E1, R1. do 4 (split; [lia|]).
  exists e. split; [done|].
  rewrite W', W, W1. unfold error_record, recovery_record.
  split; [done|]. split; [done|]. by rewrite <- app_assoc.
Qed.

(** C6.  On a coordinator fresh from its constructor (bound to any
    station), a first cycle in which an item's fetch succeeds logs no
    recovery notice for it.  In any later cycle, a recovery notice for
    an item is logged only when the item's flag is down before the cycle
    and up after it, and then an earlier cycle has reached the item's
    fetch and seen it fail with a transient error. *)
Theorem recovery_only_after_failure lat lon key ws st w :
  (∀ net it, net it = Success →
     recoveries it (tick net (fresh_coordinator lat lon key ws st w)) =
     recoveries it (fresh_coordinator lat lon key ws st w)) ∧
  (∀ nets net it,
     recoveries it (tick net (run nets (fresh_coordinator lat lon key ws st w))) ≠
     recoveries it (run nets (fresh_coordinator lat lon key ws st w)) →
     flag it (self (run nets (fresh_coordinator lat lon key ws st w))) = false ∧
     flag it
       (self (tick net (run nets (fresh_coordinator lat lon key ws st w)))) = true ∧
     ∃ pre net' post,
       nets = pre ++ net' :: post ∧ fails_transiently it net').
Proof.
  set (s0 := fresh_coordinator lat lon key ws st w). split.
  - intros net it E. pose proof (tick_item net s0 it) as T.
    assert (F : flag it (self s0) = true) by (by destruct it).
    rewrite F, E in T. cbn in T.
    destruct (attempted net it); cbn in T; destruct T as (_ & _ & ->); lia.
  - intros nets net it Hne.
    pose proof (tick_item net (run nets s0) it) as T.
    destruct (attempted net it && negb (is_fatal (net it)));
      [|destruct T as (_ & _ & T); congruence].
    destruct T as (T1 & _ & T3).
    destruct (flag it (self (run nets s0))) eqn:F; cbn in T3; [lia|].
    destruct (is_success (net it)); cbn in T3; [|lia].
    split; [reflexivity|]. split; [assumption|].
    destruct (flag_down_history it nets s0 F) as [F0|H]; [|assumption].
    by destruct it.
Qed.

Lemma append_empty_r (k : string) : k +:+ "" = k.
Proof.
  induction k as [|a k IH]; [reflexivity|].
  change (String a (k +:+ "") = String a k). by rewrite IH.
Qed.

(** C10.  The client is constructed with the configured key followed by
    " homeassistant", which is never the configured key itself. *)
Theorem client_key_is_suffixed lat lon k ws :
  nws_api_key (nws (NwsData_init lat lon k ws)) = k +:+ " homeassistant" ∧
  nws_api_key (nws (NwsData_init lat lon k ws)) ≠ k.
Proof.
  split; [reflexivity|]. cbn. intros H.
  rewrite <- (append_empty_r k) in H at 2.
  apply (inj (String.append k)) in H. discriminate.
Qed.

(** ** More on one item update *)

(** Whenever the fetch does not raise outside the transient category,
    [_async_update_item] returns whether it succeeded, leaves the
    coordinator and the dispatcher alone, makes one request, and logs
    the debug line followed by one record at WARNING level when the
    returned flag differs from [previous_success], and by nothing when
    it is the same. *)
Theorem item_update_is_edge_triggered it ty st prev s :
  is_fatal (network (world s) it) = false →
  fst (_async_update_item (nws_update it) ty st prev s) =
    Ret (is_success (network (world s) it)) ∧
  self (snd (_async_update_item (nws_update it) ty st prev s)) = self s ∧
  signals (world (snd (_async_update_item (nws_update it) ty st prev s))) =
    signals (world s) ∧
  requests (world (snd (_async_update_item (nws_update it) ty st prev s))) =
    requests (world s) ++ [it] ∧
  ∃ edge,
    log (world (snd (_async_update_item (nws_update it) ty st prev s))) =
      log (world s) ++ mkLog DEBUG MSG_UPDATING [ty; str_station st] :: edge ∧
    Forall (λ r, levelname r = WARNING) edge ∧
    length edge =
      if Bool.eqb prev (is_success (network (world s) it)) then 0 else 1.
Proof.
  destruct s as [d [net rq lg sg]].
  unfold is_fatal, _async_update_item, try_except, nws_update, when,
    logger_debug, logger_warning, modify_world, emit, request,
    mbind, M_bind, bind, mret, M_ret, ret.
  cbn. destruct (net it) as [|e]; [|destruct (is_transient e)];
    destruct prev; cbn; try discriminate; intros _;
    repeat (split; [reflexivity|]).
  - exists []. by repeat split.
  - eexists [_]. rewrite <- !app_assoc. cbn.
    split; [reflexivity|]. split; [by repeat constructor|reflexivity].
  - eexists [_]. rewrite <- !app_assoc. cbn.
    split; [reflexivity|]. split; [by repeat constructor|reflexivity].
  - exists []. by repeat split.
Qed.

(** When the fetch raises outside the transient category,
    [_async_update_item] raises the same exception after the request
    and the debug line alone: nothing is logged at WARNING level,
    whatever [previous_success] is, and the coordinator and the
    dispatcher are left alone. *)
Theorem unrecognized_exception_is_not_logged it ty st prev s e :
  network (world s) it = Raises e →
  is_transient e = false →
  _async_update_item (nws_update it) ty st prev s =
    (Raise e,
     mkSys (self s)
       (mkWorld (network (world s)) (requests (world s) ++ [it])
          (log (world s) ++ [mkLog DEBUG MSG_UPDATING [ty; str_station st]])
          (signals (world s)))).
Proof.
  destruct s as [d [net rq lg sg]].
  unfold _async_update_item, try_except, nws_update, when,
    logger_debug, logger_warning, modify_world, emit, request,
    mbind, M_bind, bind, mret, M_ret, ret.
  cbn. intros -> ->. reflexivity.
Qed.

(** ** More on one cycle *)

(** The four ways of a cycle, for one firing of the timer. *)
Lemma tick_cases net s :
  (completes net = true ∧
   tick net s =
     published (after forecast_hourly (after forecast
                  (after observation (set_network net s))))) ∨
  (is_fatal (net observation) = true ∧
   tick net s = aborted observation (set_network net s)) ∨
  (is_fatal (net observation) = false ∧ is_fatal (net forecast) = true ∧
   tick net s = aborted forecast (after observation (set_network net s))) ∨
  (is_fatal (net observation) = false ∧ is_fatal (net forecast) = false ∧
   is_fatal (net forecast_hourly) = true ∧ completes net = false ∧
   tick net s =
     aborted forecast_hourly (after forecast
        (after observation (set_network net s)))).
Proof.
  unfold tick, completes.
  assert (N : network (world (set_network net s)) = net) by reflexivity.
  destruct (async_update_shape (set_network net s))
    as [Hall|e He T|e H1 He T|e H1 H2 He T]; cbn [snd]; rewrite N in *.
  - left. by rewrite !Hall.
  - right; left. by rewrite (raises_fatal _ _ He T).
  - right; right; left. by rewrite (raises_fatal _ _ He T).
  - right; right; right. rewrite (raises_fatal _ _ He T), H1, H2. by cbn.
Qed.

(** In every call [async_update] requests the observation first, then
    the forecast, then the hourly forecast, each at most once: the
    requests it adds are the first [n] of these three, with [n] at
    least one, and all three exactly when neither of the first two
    fetches raises outside the transient category. *)
Theorem cycle_requests_are_a_prefix s :
  ∃ n : nat, (1 ≤ n ≤ 3)%nat ∧
    requests (world (snd (async_update s))) =
      requests (world s) ++ take n [observation; forecast; forecast_hourly] ∧
    (n = 3%nat ↔ is_fatal (network (world s) observation) = false ∧
             is_fatal (network (world s) forecast) = false).
Proof.
  destruct (async_update_shape s) as [Hall|e He T|e H1 He T|e H1 H2 He T];
    cbn [snd].
  - exists 3. split; [lia|]. split.
    + rewrite requests_published, !requests_after, <- !app_assoc. reflexivity.
    + split; [|done]. intros _. by rewrite !Hall.
  - exists 1. split; [lia|]. split.
    + by rewrite requests_aborted.
    + rewrite (raises_fatal _ _ He T). split; [lia|]. by intros [? _].
  - exists 2. split; [lia|]. split.
    + rewrite requests_aborted, requests_after, <- !app_assoc. reflexivity.
    + rewrite (raises_fatal _ _ He T). split; [lia|]. by intros [_ ?].
  - exists 3. split; [lia|]. split.
    + rewrite requests_aborted, !requests_after, <- !app_assoc. reflexivity.
    + by split.
Qed.

(** ** More on cycle after cycle *)

Lemma tick_keeps_client net s :
  nws (self (tick net s)) = nws (self s) ∧
  latitude (self (tick net s)) = latitude (self s) ∧
  longitude (self (tick net s)) = longitude (self s).
Proof.
  destruct (tick_cases net s)
    as [[_ ->]|[[_ ->]|[(_ & _ & ->)|(_ & _ & _ & _ & ->)]]];
    rewrite ?self_published, ?self_aborted, ?nws_after, ?latitude_after,
      ?longitude_after; done.
Qed.

Lemma tick_signals net s :
  signals (world (tick net s)) =
    signals (world s) ++
    (if completes net
     then [signal_unique_id (latitude (self s)) (longitude (self s))]
     else []).
Proof.
  destruct (tick_cases net s)
    as [[C ->]|[[F ->]|[(_ & F & ->)|(_ & _ & F & C & ->)]]].
  - rewrite C, signals_published, !signals_after, !latitude_after,
      !longitude_after. reflexivity.
  - unfold completes. rewrite F, signals_aborted. cbn. by rewrite app_nil_r.
  - unfold completes. rewrite F, signals_aborted, signals_after. cbn.
    by rewrite andb_false_r, app_nil_r.
  - rewrite C, signals_aborted, !signals_after. by rewrite app_nil_r.
Qed.

(** However many cycles run and whatever the provider answers, the
    client of the coordinator (its key, its session, the station it is
    bound to) and the coordinates stay what they were. *)
Theorem updates_keep_client_and_coordinates nets s :
  nws (self (run nets s)) = nws (self s) ∧
  latitude (self (run nets s)) = latitude (self s) ∧
  longitude (self (run nets s)) = longitude (self s).
Proof.
  revert s. induction nets as [|net nets IH]; intros s; [done|].
  rewrite run_cons. destruct (IH (tick net s)) as (-> & -> & ->).
  apply tick_keeps_client.
Qed.

(** Over any run of cycles the dispatcher receives one signal for each
    cycle in which no fetch raises outside the transient category and
    none for the others, and every one of them carries the same key,
    that of the coordinates the coordinator was built with. *)
Theorem one_signal_per_completed_cycle nets s :
  signals (world (run nets s)) =
    signals (world s) ++
    replicate (length (List.filter completes nets))
      (signal_unique_id (latitude (self s)) (longitude (self s))).
Proof.
  revert s. induction nets as [|net nets IH]; intros s.
  - cbn. by rewrite app_nil_r.
  - rewrite run_cons, IH, tick_signals.
    destruct (tick_keeps_client net s) as (_ & -> & ->).
    cbn [List.filter]. destruct (completes net); cbn.
    + by rewrite <- app_assoc.
    + by rewrite app_nil_r.
Qed.

Lemma tick_balance it net s :
  errors it (tick net s) + (if flag it (self (tick net s)) then 1 else 0)
    + recoveries it s =
  errors it s + (if flag it (self s) then 1 else 0)
    + recoveries it (tick net s).
Proof.
  pose proof (tick_item net s it) as T.
  destruct (attempted net it && negb (is_fatal (net it))) eqn:C.
  - destruct T as (-> & -> & ->).
    apply andb_prop in C as [_ C]. apply negb_true_iff in C.
    unfold is_fatal, is_transient_failure, is_success in *.
    destruct (net it) as [|e]; [|destruct (is_transient e)];
      try discriminate; destruct (flag it (self s)); cbn; lia.
  - destruct T as (-> & -> & ->). lia.
Qed.

(** For every item and over any run of cycles, failure warnings and
    recovery notices alternate: counting one for a flag that is up, the
    failure warnings less the recovery notices are the same before and
    after.  So between two failure warnings for an item there is a
    recovery notice for it, and the other way round. *)
Theorem warnings_and_recoveries_alternate it nets s :
  errors it (run nets s) + (if flag it (self (run nets s)) then 1 else 0)
    + recoveries it s =
  errors it s + (if flag it (self s) then 1 else 0)
    + recoveries it (run nets s) ∧
  (errors it (run nets s) + recoveries it s ≤
    errors it s + recoveries it (run nets s) + 1)%nat ∧
  (recoveries it (run nets s) + errors it s ≤
    recoveries it s + errors it (run nets s) + 1)%nat.
Proof.
  assert (B : ∀ s,
    errors it (run nets s) + (if flag it (self (run nets s)) then 1 else 0)
      + recoveries it s =
    errors it s + (if flag it (self s) then 1 else 0)
      + recoveries it (run nets s)).
  { induction nets as [|net nets IH]; intros s0; [done|].
    rewrite run_cons. pose proof (IH (tick net s0)).
    pose proof (tick_balance it net s0). lia. }
  specialize (B s). split; [exact B|].
  destruct (flag it (self (run nets s))), (flag it (self s)); lia.
Qed.

(** A cycle whose handled fetches all have the outcome their flags
    already record logs nothing at WARNING level and leaves the
    coordinator as it is. *)
Lemma steady_cycle_is_silent net s :
  (∀ it, attempted net it = true → is_fatal (net it) = false →
         flag it (self s) = is_success (net it)) →
  warnings (tick net s) = warnings s ∧ self (tick net s) = self s.
Proof.
  intros H.
  assert (Ho : is_fatal (net observation) = false →
               flag observation (self s) = is_success (net observation))
    by (intros ?; by apply H).
  assert (Hf : is_fatal (net observation) = false →
               is_fatal (net forecast) = false →
               flag forecast (self s) = is_success (net forecast)).
  { intros F1 ?. apply H; [|done]. unfold attempted. cbn. by rewrite F1. }
  assert (Hh : is_fatal (net observation) = false →
               is_fatal (net forecast) = false →
               is_fatal (net forecast_hourly) = false →
               flag forecast_hourly (self s) = is_success (net forecast_hourly)).
  { intros F1 F2 ?. apply H; [|done]. unfold attempted. cbn.
    by rewrite F1, F2. }
  clear H.
  set (s0 := set_network net s).
  assert (N : network (world s0) = net) by reflexivity.
  assert (S0 : self s0 = self s) by reflexivity.
  assert (W0 : warnings s0 = warnings s) by reflexivity.
  assert (A1 : is_fatal (net observation) = false →
               self (after observation s0) = self s ∧
               warnings (after observation s0) = warnings s).
  { intros F1. rewrite self_after, warnings_after, N, S0, W0, F1, (Ho F1).
    rewrite put_flag_same by (by apply Ho). rewrite eqb_reflx. cbn.
    split; [done|lia]. }
  assert (A2 : is_fatal (net observation) = false →
               is_fatal (net forecast) = false →
               self (after forecast (after observation s0)) = self s ∧
               warnings (after forecast (after observation s0)) = warnings s).
  { intros F1 F2. destruct (A1 F1) as [E1 W1].
    rewrite self_after, warnings_after, network_after, N, E1, W1, F2,
      (Hf F1 F2).
    rewrite put_flag_same by (by apply Hf). rewrite eqb_reflx. cbn.
    split; [done|lia]. }
  destruct (tick_cases net s)
    as [[C ->]|[[F ->]|[(F1 & F & ->)|(F1 & F2 & F & _ & ->)]]]; fold s0.
  - unfold completes in C. apply andb_prop in C as [C C3].
    apply andb_prop in C as [C1 C2]. apply negb_true_iff in C1, C2, C3.
    destruct (A2 C1 C2) as [E2 W2].
    rewrite self_published, warnings_published, self_after, warnings_after,
      !network_after, N, E2, W2, C3, (Hh C1 C2 C3).
    rewrite put_flag_same by (by apply Hh). rewrite eqb_reflx. cbn.
    split; [lia|done].
  - rewrite self_aborted, warnings_aborted by (by rewrite N). done.
  - destruct (A1 F1) as [E1 W1].
    rewrite self_aborted, warnings_aborted
      by (by rewrite network_after, N). done.
  - destruct (A2 F1 F2) as [E2 W2].
    rewrite self_aborted, warnings_aborted
      by (by rewrite !network_after, N). done.
Qed.

(** Running a cycle again while the provider answers as before logs
    nothing at WARNING level and leaves the coordinator as the first
    cycle left it, whatever the answers are. *)
Theorem repeated_cycle_is_silent net s :
  warnings (tick net (tick net s)) = warnings (tick net s) ∧
  self (tick net (tick net s)) = self (tick net s).
Proof.
  apply steady_cycle_is_silent. intros it A F.
  pose proof (tick_item net s it) as T. rewrite A, F in T. cbn in T.
  by destruct T as [-> _].
Qed.

(** ** The first cycles of a fresh coordinator *)

(** Cycles that do not reach the fetch of an item leave its flag and
    the station as they are. *)
Lemma unreached_item_keeps_flag it nets s :
  Forall (λ net, attempted net it = false) nets →
  flag it (self (run nets s)) = flag it (self s) ∧
  station (self (run nets s)) = station (self s).
Proof.
  intros H. revert s. induction H as [|net nets Hnet _ IH]; intros s; [done|].
  rewrite run_cons. destruct (IH (tick net s)) as (-> & ->).
  pose proof (tick_item net s it) as T. rewrite Hnet in T. cbn in T.
  destruct T as (-> & _). split; [done|].
  by destruct (tick_warnings_about net s it) as (_ & ->).
Qed.

(** C9.  The constructor sets all three flags to true, and they stay so
    until a cycle reaches the fetch of their item.  Hence the first
    cycle that reaches the fetch of an item logs for it, at WARNING
    level, the failure warning and nothing else when the fetch fails
    with a transient error, and nothing at all when it succeeds; and a
    first cycle in which the three fetches succeed logs no record at
    WARNING level whatever. *)
Theorem fresh_flags_first_cycle lat lon key ws st w nets net it :
  Forall (λ n, attempted n it = false) nets →
  attempted net it = true →
  (∀ j, flag j (NwsData_init lat lon key ws) = true) ∧
  flag it (self (run nets (fresh_coordinator lat lon key ws st w))) = true ∧
  (∀ e, net it = Raises e → is_transient e = true →
     warnings_about it
       (tick net (run nets (fresh_coordinator lat lon key ws st w))) =
     warnings_about it (run nets (fresh_coordinator lat lon key ws st w))
       ++ [error_record it st e]) ∧
  (net it = Success →
     warnings_about it
       (tick net (run nets (fresh_coordinator lat lon key ws st w))) =
     warnings_about it (run nets (fresh_coordinator lat lon key ws st w))) ∧
  ((∀ j, net j = Success) →
     warnings (tick net (fresh_coordinator lat lon key ws st w)) =
     warnings (fresh_coordinator lat lon key ws st w)).
Proof.
  intros Hnets A. set (s0 := fresh_coordinator lat lon key ws st w).
  assert (F0 : ∀ j, flag j (self s0) = true) by (by intros []).
  destruct (unreached_item_keeps_flag it nets s0 Hnets) as (F & S).
  rewrite F0 in F. change (station (self s0)) with st in S.
  split; [by intros []|]. split; [exact F|].
  destruct (tick_warnings_about net (run nets s0) it) as (W & _).
  rewrite A, F, S in W. split; [|split].
  - intros e E T. rewrite W, E. unfold is_fatal, edge_log. rewrite T. by cbn.
  - intros E. rewrite W, E. cbn. by rewrite app_nil_r.
  - intros Hall. apply steady_cycle_is_silent.
    intros j _ _. by rewrite F0, Hall.
Qed.

(** ** Binding the station *)

(** When the client finds a station, [async_set_station] returns
    normally, logs the nearby stations at debug level and leaves the
    three flags as they are, and the station it bound is still the
    coordinator's station after any run of update cycles.  When the
    client raises, [async_set_station] raises the same exception,
    and nothing is logged or changed. *)
Theorem bound_station_survives_updates {V} (client : V → station_answer)
    (wanted : V) nets s :
  (∀ st stations,
     client wanted = StationBound st stations →
     fst (async_set_station client wanted s) = Ret tt ∧
     (∀ it, flag it (self (snd (async_set_station client wanted s))) =
            flag it (self s)) ∧
     log (world (snd (async_set_station client wanted s))) =
       log (world s) ++ [mkLog DEBUG "Nearby station list: %s" [stations]] ∧
     station (self (run nets (snd (async_set_station client wanted s)))) = st) ∧
  (∀ e,
     client wanted = StationRaises e →
     async_set_station client wanted s = (Raise e, s)).
Proof.
  unfold async_set_station. split.
  - intros st stations ->.
    unfold logger_debug, modify_world, get_self, put_self,
      mbind, M_bind, bind. cbn.
    split; [done|]. split; [by intros []|]. split; [done|].
    set (s1 := mkSys _ _).
    assert (K : ∀ s0, nws (self (run nets s0)) = nws (self s0)).
    { induction nets as [|net nets' IH]; intros s0; [done|].
      rewrite run_cons, IH. apply tick_keeps_client. }
    unfold station. by rewrite K.
  - by intros e ->.
Qed.

(** A cycle that reaches a fetch raising outside the transient
    category raises that exception and sends no signal. *)
Lemma cycle_raises s it e :
  attempted (network (world s)) it = true →
  network (world s) it = Raises e →
  is_transient e = false →
  fst (async_update s) = Raise e ∧
  signals (world (snd (async_update s))) = signals (world s).
Proof.
  intros A H T. unfold attempted in A. destruct it; cbn in A.
  - rewrite (cycle_raises_observation s e) by assumption. cbn [fst snd].
    by rewrite signals_aborted.
  - apply andb_prop in A as [A1 _]. apply negb_true_iff in A1.
    rewrite (cycle_raises_forecast s e) by assumption. cbn [fst snd].
    by rewrite signals_aborted, signals_after.
  - apply andb_prop in A as [A1 A2]. apply andb_prop in A2 as [A2 _].
    apply negb_true_iff in A1, A2.
    rewrite (cycle_raises_forecast_hourly s e) by assumption. cbn [fst snd].
    by rewrite signals_aborted, !signals_after.
Qed.

(** ** More on the identity strings *)

Lemma append_cons c (a b : string) : String c a +:+ b = String c (a +:+ b).
Proof. reflexivity. Qed.

Lemma joined_by_underscore_inj (a1 a2 b1 b2 : string) :
  has_underscore a1 = false → has_underscore a2 = false →
  a1 +:+ "_" +:+ b1 = a2 +:+ "_" +:+ b2 → a1 = a2 ∧ b1 = b2.
Proof.
  revert a2. induction a1 as [|c a1 IH]; intros [|c2 a2] H1 H2 E.
  - injection E as E. done.
  - rewrite append_cons in E. injection E as <- _.
    cbn in H2. discriminate.
  - rewrite append_cons in E. injection E as -> _.
    cbn in H1. discriminate.
  - rewrite !append_cons in E. injection E as -> E.
    cbn in H1, H2. apply orb_false_elim in H1 as [_ H1].
    apply orb_false_elim in H2 as [_ H2].
    destruct (IH a2 H1 H2 E) as [-> ->]. done.
Qed.

(** When the renderings of the latitudes hold no underscore, as those
    of floats do not, two locations have the same entry id, and the
    same signal key, exactly when their latitudes render alike and
    their longitudes render alike. *)
Theorem unique_ids_tell_locations_apart lat1 lon1 lat2 lon2 :
  has_underscore (str_coord lat1) = false →
  has_underscore (str_coord lat2) = false →
  (base_unique_id lat1 lon1 = base_unique_id lat2 lon2 ↔
   str_coord lat1 = str_coord lat2 ∧ str_coord lon1 = str_coord lon2) ∧
  (signal_unique_id lat1 lon1 = signal_unique_id lat2 lon2 ↔
   str_coord lat1 = str_coord lat2 ∧ str_coord lon1 = str_coord lon2).
Proof.
  intros H1 H2.
  assert (B : base_unique_id lat1 lon1 = base_unique_id lat2 lon2 ↔
              str_coord lat1 = str_coord lat2 ∧ str_coord lon1 = str_coord lon2).
  { unfold base_unique_id. split.
    - by apply joined_by_underscore_inj.
    - by intros [-> ->]. }
  split; [exact B|]. rewrite <- B. unfold signal_unique_id. split.
  - intros E. apply (inj (String.append DOMAIN)) in E.
    by apply (inj (String.append "_")) in E.
  - by intros ->.
Qed.

End Nws.

(** ** Setting up and unloading config entries *)

(** A config entry, as far as the integration reads it. *)
Record ConfigEntry : Type := mkConfigEntry {
  entry_id : string;
  data : gmap string value
}.

Definition PLATFORMS : list string := ["weather"].

(** [datetime.timedelta(minutes=10)], in minutes. *)
Definition DEFAULT_SCAN_INTERVAL : nat := 10.

(** The [KeyError] a dictionary raises for a key it does not hold. *)
Definition KeyError (key : string) : exn := OtherException "KeyError" key.

Section Host.

(** The session [async_get_clientsession(hass)] returns, the rendering
    of a value inside an f-string, and the integration's namespace. *)
Context {ClientSession : Type} (client_session : ClientSession).
Context (str_value : value → string) (DOMAIN : string).

(** The host: [hass.data], from a domain to the coordinators of its
    entries, each given by its address among the coordinators
    constructed so far; the time-interval listeners registered, by the
    address of the coordinator whose [async_update] they call and
    their interval; the platform setups for which a task was created,
    by entry and platform; and the world outside. *)
Record HomeAssistant : Type := mkHass {
  hass_data : gmap string (gmap string nat);
  coordinators : list (@NwsData value ClientSession);
  timers : list (nat * nat);
  tasks : list (string * string);
  hass_world : World
}.

(** Computations on the host that may raise. *)
Definition H (A : Type) : Type := HomeAssistant → result A * HomeAssistant.

Definition hret {A} (a : A) : H A := λ h, (Ret a, h).

Definition hbind {A B} (k : A → H B) (m : H A) : H B :=
  λ h, match m h with
       | (Ret a, h') => k a h'
       | (Raise e, h') => (Raise e, h')
       end.

#[local] Instance H_ret : MRet H := @hret.
#[local] Instance H_bind : MBind H := @hbind.

(** [d[key]] on a dictionary. *)
Definition getitem {V} (d : gmap string V) (key : string) : H V :=
  λ h, match d !! key with
       | Some v => (Ret v, h)
       | None => (Raise (KeyError key), h)
       end.

Definition get_data : H (gmap string (gmap string nat)) :=
  λ h, (Ret (hass_data h), h).

Definition put_data (d : gmap string (gmap string nat)) : H unit :=
  λ h, (Ret tt, mkHass d (coordinators h) (timers h) (tasks h) (hass_world h)).

(** A coordinator is constructed: it gets the next address. *)
Definition new (d : NwsData) : H nat :=
  λ h, (Ret (length (coordinators h)),
        mkHass (hass_data h) (coordinators h ++ [d]) (timers h) (tasks h)
          (hass_world h)).

(** A method of the coordinator at address [a] is awaited: it runs on
    that coordinator and the world, and what it leaves of them is
    stored back.  An address that [new] did not give has no
    coordinator to run on. *)
Definition on {A} (a : nat) (m : M A) : H A :=
  λ h, match coordinators h !! a with
       | Some d =>
           match m (mkSys d (hass_world h)) with
           | (r, s) =>
               (r, mkHass (hass_data h) (<[a := self s]> (coordinators h))
                     (timers h) (tasks h) (world s))
           end
       | None => (Raise (OtherException "ReferenceError" ""), h)
       end.

(** [async_track_time_interval(hass, action, interval)] with the
    [async_update] of the coordinator at [a] for action; what it
    returns is dropped by the caller. *)
Definition async_track_time_interval (a : nat) (interval : nat) : H unit :=
  λ h, (Ret tt,
        mkHass (hass_data h) (coordinators h) (timers h ++ [(a, interval)])
          (tasks h) (hass_world h)).

(** [hass.async_create_task] of
    [hass.config_entries.async_forward_entry_setup(entry, component)]. *)
Definition async_create_task (entry : ConfigEntry) (component : string) : H unit :=
  λ h, (Ret tt,
        mkHass (hass_data h) (coordinators h) (timers h)
          (tasks h ++ [(entry_id entry, component)]) (hass_world h)).

Fixpoint for_each {A} (l : list A) (body : A → H unit) : H unit :=
  match l with
  | [] => mret tt
  | x :: rest => body x ;; for_each rest body
  end.

(** [async_setup]; its [config] is not looked at. *)
Definition async_setup : H bool :=
  d ← get_data ;
  (match d !! DOMAIN with
   | Some _ => mret tt
   | None => put_data (<[DOMAIN := ∅]> d)
   end) ;;
  mret true.

(** [async_setup_entry], the client answering [set_station] as
    [client] says. *)
Definition async_setup_entry (client : value → station_answer)
    (entry : ConfigEntry) : H bool :=
  latitude ← getitem (data entry) CONF_LATITUDE ;
  longitude ← getitem (data entry) CONF_LONGITUDE ;
  api_key ← getitem (data entry) CONF_API_KEY ;
  station ← getitem (data entry) CONF_STATION ;
  nws_data ← new (NwsData_init latitude longitude (str_value api_key)
                    client_session) ;
  d ← get_data ;
  registry ← getitem d DOMAIN ;
  put_data (<[DOMAIN := <[entry_id entry := nws_data]> registry]> d) ;;
  on nws_data (async_set_station client station) ;;
  on nws_data (async_update str_value DOMAIN) ;;
  async_track_time_interval nws_data DEFAULT_SCAN_INTERVAL ;;
  for_each PLATFORMS (async_create_task entry) ;;
  mret true.

(** [async_unload_entry], the host answering
    [async_forward_entry_unload(entry, component)] as [unload] says. *)
Definition async_unload_entry (unload : string → bool) (entry : ConfigEntry)
    : H bool :=
  let unload_ok := forallb id (map unload PLATFORMS) in
  (if unload_ok then
     d ← get_data ;
     registry ← getitem d DOMAIN ;
     _ ← getitem registry (entry_id entry) ;
     put_data (<[DOMAIN := delete (entry_id entry) registry]> d) ;;
     d ← get_data ;
     registry ← getitem d DOMAIN ;
     if bool_decide (size registry = 0)
     then put_data (delete DOMAIN d)
     else mret tt
   else mret tt) ;;
  mret unload_ok.

(** One firing of the listener of the coordinator at [a] while the
    provider answers as [net]; an exception that escapes is the host's
    to report. *)
Definition fire (net : item → outcome) (a : nat) (h : HomeAssistant)
    : HomeAssistant :=
  snd (on a (async_update str_value DOMAIN)
         (mkHass (hass_data h) (coordinators h) (timers h) (tasks h)
            (mkWorld net (requests (hass_world h)) (log (hass_world h))
               (signals (hass_world h))))).

(** The host after [async_setup], the setup of [entry] and its
    unload, in this order. *)
Definition set_up_and_unloaded (client : value → station_answer)
    (unload : string → bool) (entry : ConfigEntry) (h : HomeAssistant)
    : HomeAssistant :=
  snd (async_unload_entry unload entry
         (snd (async_setup_entry client entry (snd (async_setup h))))).

(** *** Properties *)

Ltac host_unfold :=
  unfold async_setup_entry, async_unload_entry, async_setup, getitem, new,
    get_data, put_data, async_track_time_interval, async_create_task,
    for_each, PLATFORMS, mbind, H_bind, hbind, mret, H_ret, hret.

(** An entry whose data lacks the latitude, the longitude, the API key
    or the station cannot be set up: [async_setup_entry] raises the
    [KeyError] of a key that is missing and leaves the host as it
    was. *)
Theorem setup_entry_needs_every_key client entry h key :
  key ∈ [CONF_LATITUDE; CONF_LONGITUDE; CONF_API_KEY; CONF_STATION] →
  data entry !! key = None →
  ∃ missing,
    data entry !! missing = None ∧
    async_setup_entry client entry h = (Raise (KeyError missing), h).
Proof.
  intros Hin Hkey. host_unfold.
  destruct (data entry !! CONF_LATITUDE) as [lat|] eqn:E1; [|by eexists].
  destruct (data entry !! CONF_LONGITUDE) as [lon|] eqn:E2; [|by eexists].
  destruct (data entry !! CONF_API_KEY) as [api|] eqn:E3; [|by eexists].
  destruct (data entry !! CONF_STATION) as [st|] eqn:E4; [|by eexists].
  exfalso.
  repeat (apply elem_of_cons in Hin as [->|Hin]; [congruence|]).
  by apply elem_of_nil in Hin.
Qed.

Lemma lookup_last_added {A} (l : list A) (x : A) :
  (l ++ [x]) !! length l = Some x.
Proof. by apply list_lookup_middle. Qed.

Lemma insert_last_added {A} (l : list A) (x y : A) :
  <[length l := y]> (l ++ [x]) = l ++ [y].
Proof.
  rewrite insert_app_r_alt by lia. by rewrite Nat.sub_diag.
Qed.

(** The host once the entry's coordinator [d] is registered. *)
Definition registered (entry : ConfigEntry)
    (registry : gmap string nat) (d : NwsData) (w : World)
    (h : HomeAssistant) : HomeAssistant :=
  mkHass
    (<[DOMAIN := <[entry_id entry := length (coordinators h)]> registry]>
       (hass_data h))
    (coordinators h ++ [d]) (timers h) (tasks h) w.

(** The coordinator and the world just before the first cycle. *)
Definition before_first_cycle (lat lon api : value) (bound : option string)
    (stations : string) (h : HomeAssistant) : Sys :=
  mkSys (with_station bound (NwsData_init lat lon (str_value api) client_session))
    (emit (mkLog DEBUG "Nearby station list: %s" [stations]) (hass_world h)).

Lemma setup_entry_eq client entry h lat lon api st registry :
  data entry !! CONF_LATITUDE = Some lat →
  data entry !! CONF_LONGITUDE = Some lon →
  data entry !! CONF_API_KEY = Some api →
  data entry !! CONF_STATION = Some st →
  hass_data h !! DOMAIN = Some registry →
  async_setup_entry client entry h =
    match client st with
    | StationRaises e =>
        (Raise e,
         registered entry registry
           (NwsData_init lat lon (str_value api) client_session)
           (hass_world h) h)
    | StationBound bound stations =>
        match async_update str_value DOMAIN
                (before_first_cycle lat lon api bound stations h) with
        | (Ret _, s) =>
            (Ret true,
             mkHass
               (<[DOMAIN := <[entry_id entry := length (coordinators h)]> registry]>
                  (hass_data h))
               (coordinators h ++ [self s])
               (timers h ++ [(length (coordinators h), DEFAULT_SCAN_INTERVAL)])
               (tasks h ++ [(entry_id entry, "weather")])
               (world s))
        | (Raise e, s) =>
            (Raise e, registered entry registry (self s) (world s) h)
        end
    end.
Proof.
  intros E1 E2 E3 E4 E5. host_unfold. rewrite E1, E2, E3, E4. cbn.
  rewrite E5. unfold on, async_set_station, registered, before_first_cycle.
  cbn. rewrite lookup_last_added.
  destruct (client st) as [bound stations|e]; cbn.
  - unfold mbind, M_bind, bind, get_self, put_self, logger_debug,
      modify_world. cbn.
    rewrite insert_last_added, lookup_last_added.
    destruct (async_update _ _ _) as [[[]|e] s] eqn:U; cbn;
      by rewrite insert_last_added.
  - by rewrite insert_last_added.
Qed.


(** With the four keys in its data, an entry still cannot be set up
    before [async_setup] has run: [async_setup_entry] raises the
    [KeyError] of the domain, and [hass.data], the listeners, the tasks
    and the world are as they were (no request, no signal). *)
Theorem setup_entry_needs_async_setup client entry h lat lon api st :
  data entry !! CONF_LATITUDE = Some lat →
  data entry !! CONF_LONGITUDE = Some lon →
  data entry !! CONF_API_KEY = Some api →
  data entry !! CONF_STATION = Some st →
  hass_data h !! DOMAIN = None →
  fst (async_setup_entry client entry h) = Raise (KeyError DOMAIN) ∧
  hass_data (snd (async_setup_entry client entry h)) = hass_data h ∧
  timers (snd (async_setup_entry client entry h)) = timers h ∧
  tasks (snd (async_setup_entry client entry h)) = tasks h ∧
  hass_world (snd (async_setup_entry client entry h)) = hass_world h.
Proof.
  intros E1 E2 E3 E4 E5. host_unfold. rewrite E1, E2, E3, E4. cbn.
  rewrite E5. done.
Qed.

(** A setup that goes through: with the four keys in the entry's data,
    the domain set up, the client bound to a station and no fetch of
    the first cycle raising outside the transient category,
    [async_setup_entry] returns [True]; the entry is registered under
    the domain with a coordinator just constructed, the other entries
    and domains are as they were; that coordinator has the entry's
    coordinates, the suffixed key, the station the client found, and
    flags that are the outcomes of the first cycle; the three requests
    were made and one signal sent; one listener with the ten-minute
    interval and one task, for the weather platform, were added. *)
Theorem setup_entry_succeeds client entry h lat lon api st registry bound stations :
  data entry !! CONF_LATITUDE = Some lat →
  data entry !! CONF_LONGITUDE = Some lon →
  data entry !! CONF_API_KEY = Some api →
  data entry !! CONF_STATION = Some st →
  hass_data h !! DOMAIN = Some registry →
  client st = StationBound bound stations →
  (∀ it, is_fatal (network (hass_world h) it) = false) →
  ∃ d h',
    async_setup_entry client entry h = (Ret true, h') ∧
    hass_data h' =
      <[DOMAIN := <[entry_id entry := length (coordinators h)]> registry]>
        (hass_data h) ∧
    coordinators h' = coordinators h ++ [d] ∧
    latitude d = lat ∧ longitude d = lon ∧
    nws_api_key (nws d) = str_value api +:+ " homeassistant" ∧
    station d = bound ∧
    (∀ it, flag it d = is_success (network (hass_world h) it)) ∧
    requests (hass_world h') =
      requests (hass_world h) ++ [observation; forecast; forecast_hourly] ∧
    signals (hass_world h') =
      signals (hass_world h) ++ [signal_unique_id str_value DOMAIN lat lon] ∧
    timers h' = timers h ++ [(length (coordinators h), 10)] ∧
    tasks h' = tasks h ++ [(entry_id entry, "weather")].
Proof.
  intros E1 E2 E3 E4 E5 E6 Hnet.
  rewrite (setup_entry_eq client entry h lat lon api st registry) by done.
  rewrite E6.
  set (s1 := before_first_cycle lat lon api bound stations h).
  rewrite (cycle_completes str_value DOMAIN s1) by apply Hnet.
  eexists _, _. split; [reflexivity|]. cbn [hass_data coordinators timers
    tasks hass_world]. split; [reflexivity|]. split; [reflexivity|].
  rewrite self_published, !latitude_after, !longitude_after.
  unfold station. rewrite !nws_after.
  do 4 (split; [reflexivity|]).
  split.
  { intros it. rewrite !flag_after, !network_after. by destruct it. }
  split.
  { rewrite requests_published, !requests_after, <- !app_assoc. done. }
  split; [|done].
  rewrite signals_published, !signals_after, !latitude_after,
    !longitude_after. done.
Qed.

(** A setup that fails late: when the client raises on [set_station],
    or a fetch that the first cycle reaches raises outside the
    transient category, [async_setup_entry] raises that exception with
    the coordinator already registered under the domain, and with no
    listener, no task and no signal added. *)
Theorem failed_setup_leaves_coordinator_registered
    client entry h lat lon api st registry e :
  data entry !! CONF_LATITUDE = Some lat →
  data entry !! CONF_LONGITUDE = Some lon →
  data entry !! CONF_API_KEY = Some api →
  data entry !! CONF_STATION = Some st →
  hass_data h !! DOMAIN = Some registry →
  client st = StationRaises e ∨
  (∃ bound stations it,
     client st = StationBound bound stations ∧
     attempted (network (hass_world h)) it = true ∧
     network (hass_world h) it = Raises e ∧
     is_transient e = false) →
  fst (async_setup_entry client entry h) = Raise e ∧
  hass_data (snd (async_setup_entry client entry h)) !! DOMAIN =
    Some (<[entry_id entry := length (coordinators h)]> registry) ∧
  length (coordinators (snd (async_setup_entry client entry h))) =
    S (length (coordinators h)) ∧
  timers (snd (async_setup_entry client entry h)) = timers h ∧
  tasks (snd (async_setup_entry client entry h)) = tasks h ∧
  signals (hass_world (snd (async_setup_entry client entry h))) =
    signals (hass_world h).
Proof.
  intros E1 E2 E3 E4 E5 Hfail.
  rewrite (setup_entry_eq client entry h lat lon api st registry) by done.
  destruct Hfail as [->|(bound & stations & it & -> & A & Hit & T)].
  - cbn. rewrite lookup_insert_eq, length_app. cbn.
    repeat split; lia.
  - set (s1 := before_first_cycle lat lon api bound stations h).
    destruct (cycle_raises str_value DOMAIN s1 it e A Hit T) as [R S].
    destruct (async_update str_value DOMAIN s1) as [[[]|e'] s2];
      cbn in R, S; [discriminate|]. injection R as ->. cbn.
    rewrite lookup_insert_eq, length_app. cbn.
    repeat split; [lia|done].
Qed.

Lemma unload_entry_eq unload entry h registry a :
  unload "weather" = true →
  hass_data h !! DOMAIN = Some registry →
  registry !! entry_id entry = Some a →
  async_unload_entry unload entry h =
    (Ret true,
     mkHass
       (if bool_decide (delete (entry_id entry) registry = ∅)
        then delete DOMAIN (hass_data h)
        else <[DOMAIN := delete (entry_id entry) registry]> (hass_data h))
       (coordinators h) (timers h) (tasks h) (hass_world h)).
Proof.
  intros U E1 E2. host_unfold. cbn. rewrite U. cbn. rewrite E1, E2. cbn.
  rewrite lookup_insert_eq.
  destruct (decide (delete (entry_id entry) registry = ∅)) as [E|E].
  - rewrite (bool_decide_eq_true_2 _ E).
    rewrite bool_decide_eq_true_2 by (by rewrite E, map_size_empty).
    cbn. by rewrite delete_insert_eq.
  - rewrite (bool_decide_eq_false_2 _ E).
    rewrite bool_decide_eq_false_2 by (by rewrite map_size_empty_iff).
    done.
Qed.

(** An unload that goes through: when the platform unloads and the
    entry is registered, [async_unload_entry] returns [True] and takes
    the entry out of the registry of the domain; the registry itself is
    taken out of [hass.data] exactly when no other entry is left in it;
    the other entries and the other domains stay, and so do the
    coordinators, the tasks, the world and the listeners: the listener
    added at setup is not removed. *)
Theorem unload_entry_removes_entry unload entry h registry a :
  unload "weather" = true →
  hass_data h !! DOMAIN = Some registry →
  registry !! entry_id entry = Some a →
  ∃ h',
    async_unload_entry unload entry h = (Ret true, h') ∧
    hass_data h' !! DOMAIN =
      (if bool_decide (delete (entry_id entry) registry = ∅) then None
       else Some (delete (entry_id entry) registry)) ∧
    (∀ other, other ≠ entry_id entry →
       (hass_data h' !! DOMAIN ≫= (.!! other)) = registry !! other) ∧
    (∀ domain, domain ≠ DOMAIN →
       hass_data h' !! domain = hass_data h !! domain) ∧
    coordinators h' = coordinators h ∧
    timers h' = timers h ∧
    tasks h' = tasks h ∧
    hass_world h' = hass_world h.
Proof.
  intros U E1 E2. rewrite (unload_entry_eq unload entry h registry a) by done.
  eexists. split; [reflexivity|]. cbn.
  destruct (decide (delete (entry_id entry) registry = ∅)) as [E|E].
  - rewrite (bool_decide_eq_true_2 _ E). rewrite lookup_delete_eq.
    split; [done|]. split.
    + intros other Hne. cbn.
      assert (delete (entry_id entry) registry !! other = None) as L
        by (by rewrite E).
      by rewrite lookup_delete_ne in L.
    + split; [|done]. intros domain Hne. by rewrite lookup_delete_ne.
  - rewrite (bool_decide_eq_false_2 _ E). rewrite lookup_insert_eq.
    split; [done|]. split.
    + intros other Hne. cbn. by rewrite lookup_delete_ne.
    + split; [|done]. intros domain Hne. by rewrite lookup_insert_ne.
Qed.

(** An unload that does not go through leaves the host as it was: when
    the platform refuses to unload, [async_unload_entry] returns
    [False], also for an entry that is not registered; when the
    platform unloads but the domain or the entry is not in
    [hass.data], it raises the [KeyError] of the domain or of the
    entry id. *)
Theorem unload_entry_fails_cleanly unload entry h :
  (unload "weather" = false →
   async_unload_entry unload entry h = (Ret false, h)) ∧
  (unload "weather" = true → hass_data h !! DOMAIN = None →
   async_unload_entry unload entry h = (Raise (KeyError DOMAIN), h)) ∧
  (∀ registry,
     unload "weather" = true → hass_data h !! DOMAIN = Some registry →
     registry !! entry_id entry = None →
     async_unload_entry unload entry h =
       (Raise (KeyError (entry_id entry)), h)).
Proof.
  split; [|split].
  - intros U. host_unfold. cbn. by rewrite U.
  - intros U E. host_unfold. cbn. rewrite U. cbn. by rewrite E.
  - intros registry U E1 E2. host_unfold. cbn. rewrite U. cbn.
    by rewrite E1, E2.
Qed.

(** [async_setup] returns [True] and makes sure the domain is in
    [hass.data]: with an empty registry when it was not there, with the
    registry it had, entries and all, when it was; nothing else
    changes, and running it again changes nothing at all. *)
Theorem async_setup_keeps_entries h :
  fst (async_setup h) = Ret true ∧
  hass_data (snd (async_setup h)) !! DOMAIN =
    Some (default ∅ (hass_data h !! DOMAIN)) ∧
  (∀ domain, domain ≠ DOMAIN →
     hass_data (snd (async_setup h)) !! domain = hass_data h !! domain) ∧
  coordinators (snd (async_setup h)) = coordinators h ∧
  timers (snd (async_setup h)) = timers h ∧
  tasks (snd (async_setup h)) = tasks h ∧
  hass_world (snd (async_setup h)) = hass_world h ∧
  async_setup (snd (async_setup h)) = (Ret true, snd (async_setup h)).
Proof.
  host_unfold. cbn. destruct (hass_data h !! DOMAIN) as [registry|] eqn:E; cbn.
  - rewrite E. by repeat split.
  - rewrite lookup_insert_eq. repeat split; try done.
    intros domain Hne. by rewrite lookup_insert_ne.
Qed.

Lemma set_up_and_unloaded_eq client unload entry h lat lon api st bound stations :
  hass_data h !! DOMAIN = None →
  data entry !! CONF_LATITUDE = Some lat →
  data entry !! CONF_LONGITUDE = Some lon →
  data entry !! CONF_API_KEY = Some api →
  data entry !! CONF_STATION = Some st →
  client st = StationBound bound stations →
  (∀ it, is_fatal (network (hass_world h) it) = false) →
  unload "weather" = true →
  set_up_and_unloaded client unload entry h =
    mkHass (hass_data h)
      (coordinators h ++
         [self (snd (async_update str_value DOMAIN
                       (before_first_cycle lat lon api bound stations h)))])
      (timers h ++ [(length (coordinators h), DEFAULT_SCAN_INTERVAL)])
      (tasks h ++ [(entry_id entry, "weather")])
      (world (snd (async_update str_value DOMAIN
                     (before_first_cycle lat lon api bound stations h)))).
Proof.
  intros E0 E1 E2 E3 E4 E5 Hnet U. unfold set_up_and_unloaded.
  assert (A : async_setup h =
    (Ret true, mkHass (<[DOMAIN := ∅]> (hass_data h)) (coordinators h)
                 (timers h) (tasks h) (hass_world h))).
  { host_unfold. cbn. by rewrite E0. }
  rewrite A. cbn [snd].
  rewrite (setup_entry_eq client entry _ lat lon api st ∅)
    by (done || by cbn; rewrite lookup_insert_eq).
  rewrite E5.
  change (before_first_cycle lat lon api bound stations
            (mkHass (<[DOMAIN := ∅]> (hass_data h)) (coordinators h)
               (timers h) (tasks h) (hass_world h)))
    with (before_first_cycle lat lon api bound stations h).
  rewrite (cycle_completes str_value DOMAIN
             (before_first_cycle lat lon api bound stations h))
    by apply Hnet.
  cbn [snd coordinators hass_data timers tasks hass_world].
  rewrite (unload_entry_eq unload entry _
             (<[entry_id entry := length (coordinators h)]> ∅)
             (length (coordinators h)))
    by (done || (cbn; by rewrite lookup_insert_eq)).
  cbn [snd coordinators hass_data timers tasks hass_world].
  rewrite delete_insert_eq, delete_empty.
  rewrite bool_decide_eq_true_2 by done.
  rewrite insert_insert_eq, delete_insert_eq.
  by rewrite delete_id.
Qed.

(** A round trip that forgets the domain: after [async_setup] on a
    host without the domain, the setup of an entry that goes through
    and its unload, [hass.data] is what it was before [async_setup],
    without the domain; so no entry with its four keys can be set up
    any more, [async_setup_entry] raising the [KeyError] of the
    domain, until [async_setup] runs again. *)
Theorem unloading_the_last_entry_forgets_the_domain
    client unload entry h lat lon api st bound stations :
  hass_data h !! DOMAIN = None →
  data entry !! CONF_LATITUDE = Some lat →
  data entry !! CONF_LONGITUDE = Some lon →
  data entry !! CONF_API_KEY = Some api →
  data entry !! CONF_STATION = Some st →
  client st = StationBound bound stations →
  (∀ it, is_fatal (network (hass_world h) it) = false) →
  unload "weather" = true →
  hass_data (set_up_and_unloaded client unload entry h) = hass_data h ∧
  (∀ client' entry',
     is_Some (data entry' !! CONF_LATITUDE) →
     is_Some (data entry' !! CONF_LONGITUDE) →
     is_Some (data entry' !! CONF_API_KEY) →
     is_Some (data entry' !! CONF_STATION) →
     fst (async_setup_entry client' entry'
            (set_up_and_unloaded client unload entry h)) =
       Raise (KeyError DOMAIN)) ∧
  hass_data (snd (async_setup (set_up_and_unloaded client unload entry h)))
    !! DOMAIN = Some ∅.
Proof.
  intros E0 E1 E2 E3 E4 E5 Hnet U.
  rewrite (set_up_and_unloaded_eq client unload entry h lat lon api st
             bound stations) by done.
  split; [done|]. split.
  - intros client' entry' [lat' L1] [lon' L2] [api' L3] [st' L4].
    host_unfold. rewrite L1, L2, L3, L4. cbn. by rewrite E0.
  - host_unfold. cbn. rewrite E0. cbn. by rewrite lookup_insert_eq.
Qed.

(** The listener outlives the unload: after the same round trip the
    listener added at setup is still registered and the coordinator is
    still there, so that a firing, in which no fetch raises outside
    the transient category, makes the three requests again and sends
    the signal of the location again. *)
Theorem listener_outlives_unload
    client unload entry h lat lon api st bound stations net :
  hass_data h !! DOMAIN = None →
  data entry !! CONF_LATITUDE = Some lat →
  data entry !! CONF_LONGITUDE = Some lon →
  data entry !! CONF_API_KEY = Some api →
  data entry !! CONF_STATION = Some st →
  client st = StationBound bound stations →
  (∀ it, is_fatal (network (hass_world h) it) = false) →
  unload "weather" = true →
  (∀ it, is_fatal (net it) = false) →
  timers (set_up_and_unloaded client unload entry h) =
    timers h ++ [(length (coordinators h), 10)] ∧
  requests (hass_world (fire net (length (coordinators h))
                          (set_up_and_unloaded client unload entry h))) =
    requests (hass_world (set_up_and_unloaded client unload entry h))
      ++ [observation; forecast; forecast_hourly] ∧
  signals (hass_world (fire net (length (coordinators h))
                         (set_up_and_unloaded client unload entry h))) =
    signals (hass_world (set_up_and_unloaded client unload entry h))
      ++ [signal_unique_id str_value DOMAIN lat lon].
Proof.
  intros E0 E1 E2 E3 E4 E5 Hnet U Hnet'.
  rewrite (set_up_and_unloaded_eq client unload entry h lat lon api st
             bound stations) by done.
  split; [done|].
  assert (L : latitude (self (snd (async_update str_value DOMAIN
                (before_first_cycle lat lon api bound stations h)))) = lat ∧
              longitude (self (snd (async_update str_value DOMAIN
                (before_first_cycle lat lon api bound stations h)))) = lon).
  { rewrite (cycle_completes str_value DOMAIN
               (before_first_cycle lat lon api bound stations h))
      by apply Hnet.
    cbn [snd]. by rewrite self_published, !latitude_after, !longitude_after. }
  destruct (async_update str_value DOMAIN
              (before_first_cycle lat lon api bound stations h)) as [r s2].
  cbn [snd] in *. destruct L as [L1 L2].
  unfold fire, on. cbn [snd coordinators hass_data timers tasks hass_world].
  rewrite lookup_last_added.
  match goal with
  | |- context [async_update str_value DOMAIN ?s] =>
      rewrite (cycle_completes str_value DOMAIN s) by apply Hnet'
  end.
  cbn [snd hass_world].
  rewrite requests_published, !requests_after, <- !app_assoc.
  rewrite signals_published, !signals_after, !latitude_after,
    !longitude_after.
  cbn [self world requests signals]. by rewrite L1, L2.
Qed.

End Host.

(** ** A coordinator for 40.0, -75.0 *)

(** The coordinator fresh from its constructor for these coordinates
    and the key "k", bound to station KXYZ, the provider answering as
    [net]. *)
Local Abbreviation example_coordinator net :=
  (fresh_coordinator "40.0" "-75.0" "k" tt (Some "KXYZ") (quiet net))
  (only parsing).

Lemma update_publishes_exactly_once_witness :
  (∀ it, is_fatal (all_fail it) = false) ∧
  fst (async_update example_str "nws" (example_coordinator all_fail)) = Ret tt ∧
  signals (world (snd (async_update example_str "nws" (example_coordinator all_fail)))) =
    ["nws_40.0_-75.0"].
Proof.
  split; [intros it; reflexivity|].
  apply (update_publishes_exactly_once example_str "nws"
           (example_coordinator all_fail)).
  intros it. reflexivity.
Defined.

(** The forecast fetch times out in two cycles and succeeds in the
    third. *)
Lemma one_warning_one_recovery_witness :
  (flag forecast
     (self (example_coordinator all_good)) = true ∧
   Forall (fails_transiently forecast) [forecast_times_out; forecast_times_out] ∧
   attempted all_good forecast = true ∧
   all_good forecast = Success) ∧
  errors forecast
    (tick example_str "nws" forecast_times_out
       (example_coordinator all_good)) = 1 ∧
  errors forecast
    (run example_str "nws" [forecast_times_out; forecast_times_out; all_good]
       (example_coordinator all_good)) = 1 ∧
  recoveries forecast
    (run example_str "nws" [forecast_times_out; forecast_times_out]
       (example_coordinator all_good)) = 0 ∧
  recoveries forecast
    (run example_str "nws" [forecast_times_out; forecast_times_out; all_good]
       (example_coordinator all_good)) = 1 ∧
  warnings_about forecast
    (run example_str "nws" [forecast_times_out; forecast_times_out]
       (example_coordinator all_good)) =
    [mkLog WARNING MSG_ERROR ["forecast"; "KXYZ"; "timeout"]] ∧
  warnings_about forecast
    (run example_str "nws" [forecast_times_out; forecast_times_out; all_good]
       (example_coordinator all_good)) =
    [mkLog WARNING MSG_ERROR ["forecast"; "KXYZ"; "timeout"];
     mkLog WARNING MSG_SUCCESS ["forecast"; "KXYZ"]].
Proof.
  assert (H : Forall (fails_transiently forecast)
                [forecast_times_out; forecast_times_out])
    by (repeat constructor).
  split; [repeat split; [exact H]|].
  destruct (one_warning_one_recovery example_str "nws" forecast
              forecast_times_out [forecast_times_out] all_good
              (example_coordinator all_good)
              eq_refl H eq_refl eq_refl)
    as (H1 & H2 & H3 & H4 & e & He & _ & W2 & W3).
  injection He as <-.
  split; [exact H1|]. split; [exact H2|]. split; [exact H3|].
  split; [exact H4|]. split; [exact W2|exact W3].
Defined.

Lemma unrecognized_exception_propagates_witness :
  attempted forecast_crashes forecast = true ∧
  is_transient (OtherException "ValueError" "bad payload") = false ∧
  fst (async_update example_str "nws" (example_coordinator forecast_crashes)) =
    Raise (OtherException "ValueError" "bad payload") ∧
  requests (world (snd (async_update example_str "nws"
                          (example_coordinator forecast_crashes)))) =
    [observation; forecast].
Proof.
  split; [reflexivity|]. split; [reflexivity|].
  apply (proj1 (unrecognized_exception_propagates example_str "nws"
                  (example_coordinator forecast_crashes)) forecast);
    reflexivity.
Defined.

Lemma observation_failure_is_isolated_witness :
  is_transient_failure (all_fail observation) = true ∧
  requests (world (snd (async_update example_str "nws"
                          (example_coordinator all_fail)))) =
    [observation; forecast; forecast_hourly].
Proof.
  split; [reflexivity|].
  apply (observation_failure_is_isolated example_str "nws"
           (example_coordinator all_fail)).
  reflexivity.
Defined.

(** C4 as stated fails: the observation fetch fails with a transient
    error, the forecast fetch raises a [ValueError], and the
    hourly-forecast fetch is not made. *)
Lemma hourly_forecast_not_attempted :
  is_transient_failure (forecast_crashes observation) = true ∧
  requests (world (snd (async_update example_str "nws"
                          (example_coordinator forecast_crashes)))) =
    [observation; forecast] ∧
  ¬ In forecast_hourly
      (requests (world (snd (async_update example_str "nws"
                               (example_coordinator forecast_crashes))))).
Proof.
  split; [reflexivity|]. split; [reflexivity|].
  cbn. intros [H|[H|[]]]; discriminate.
Qed.

Lemma flags_reflect_latest_attempt_witness :
  fst (async_update example_str "nws"
         (example_coordinator forecast_times_out)) = Ret tt ∧
  fst (async_update example_str "nws"
         (example_coordinator only_forecast_times_out)) = Ret tt ∧
  flag forecast
    (self (snd (async_update example_str "nws"
                  (example_coordinator forecast_times_out)))) = false ∧
  flag forecast
    (self (snd (async_update example_str "nws"
                  (example_coordinator forecast_times_out)))) =
  flag forecast
    (self (snd (async_update example_str "nws"
                  (example_coordinator only_forecast_times_out)))).
Proof.
  split; [reflexivity|]. split; [reflexivity|].
  pose proof (flags_reflect_latest_attempt example_str "nws"
                (example_coordinator forecast_times_out)
                (example_coordinator only_forecast_times_out)
                forecast eq_refl eq_refl) as [H1 H2].
  split; [exact H1|exact (H2 eq_refl)].
Defined.

Lemma recovery_only_after_failure_witness :
  recoveries observation
    (tick example_str "nws" all_good (example_coordinator all_good)) = 0 ∧
  flag forecast
    (self (run example_str "nws" [forecast_times_out]
             (example_coordinator all_good))) = false ∧
  flag forecast
    (self (tick example_str "nws" all_good
             (run example_str "nws" [forecast_times_out]
                (example_coordinator all_good)))) = true ∧
  ∃ pre net' post,
    [forecast_times_out] = pre ++ net' :: post ∧ fails_transiently forecast net'.
Proof.
  split.
  - apply (proj1 (recovery_only_after_failure example_str "nws"
                    "40.0" "-75.0" "k" tt (Some "KXYZ") (quiet all_good))
             all_good observation eq_refl).
  - apply (proj2 (recovery_only_after_failure example_str "nws"
                    "40.0" "-75.0" "k" tt (Some "KXYZ") (quiet all_good))
             [forecast_times_out] all_good forecast).
    vm_compute. discriminate.
Defined.

(** The forecast fetch raises a [ValueError] after the observation
    fetch failed with a transient error. *)
Lemma aborted_cycle_keeps_later_flags_witness :
  (attempted forecast_crashes forecast = true ∧
   forecast_crashes forecast = Raises (OtherException "ValueError" "bad payload") ∧
   is_transient (OtherException "ValueError" "bad payload") = false) ∧
  flag forecast
    (self (snd (async_update example_str "nws"
                  (example_coordinator forecast_crashes)))) = true ∧
  flag forecast_hourly
    (self (snd (async_update example_str "nws"
                  (example_coordinator forecast_crashes)))) = true ∧
  flag observation
    (self (snd (async_update example_str "nws"
                  (example_coordinator forecast_crashes)))) = false ∧
  signals (world (snd (async_update example_str "nws"
                         (example_coordinator forecast_crashes)))) = [].
Proof.
  split; [repeat split|].
  destruct (aborted_cycle_keeps_later_flags example_str "nws"
              (example_coordinator forecast_crashes) forecast
              (OtherException "ValueError" "bad payload")
              eq_refl eq_refl eq_refl) as (H1 & H2 & H3 & H4).
  split; [exact H1|]. split; [apply H2; right; left; reflexivity|].
  split; [apply H3; left; reflexivity|exact H4].
Defined.

(** C8 as stated fails: the forecast fetch raises a [ValueError] after
    the observation fetch failed with a transient error, and the
    observation flag, up before the call, is down after it. *)
Lemma earlier_flag_is_modified :
  forecast_crashes forecast = Raises (OtherException "ValueError" "bad payload") ∧
  is_transient (OtherException "ValueError" "bad payload") = false ∧
  fst (async_update example_str "nws" (example_coordinator forecast_crashes)) =
    Raise (OtherException "ValueError" "bad payload") ∧
  flag observation (self (example_coordinator forecast_crashes)) = true ∧
  flag observation
    (self (snd (async_update example_str "nws"
                  (example_coordinator forecast_crashes)))) = false.
Proof. repeat split. Qed.

(** The hourly forecast is first reached in the second cycle, the
    first one having stopped at the forecast, and fails there; the
    observation succeeds in a first cycle. *)
Lemma fresh_flags_first_cycle_witness :
  (Forall (λ n, attempted n forecast_hourly = false) [forecast_crashes] ∧
   attempted all_fail forecast_hourly = true) ∧
  warnings_about forecast_hourly
    (tick example_str "nws" all_fail
       (run example_str "nws" [forecast_crashes]
          (example_coordinator all_good))) =
    [mkLog WARNING MSG_ERROR ["forecast_hourly"; "KXYZ"; "down"]] ∧
  warnings_about observation
    (tick example_str "nws" all_good (example_coordinator all_good)) = [] ∧
  warnings
    (tick example_str "nws" all_good (example_coordinator all_good)) = 0.
Proof.
  assert (H : Forall (λ n, attempted n forecast_hourly = false)
                [forecast_crashes]) by (repeat constructor).
  split; [by split|].
  destruct (fresh_flags_first_cycle example_str "nws" "40.0" "-75.0" "k" tt
              (Some "KXYZ") (quiet all_good) [forecast_crashes] all_fail
              forecast_hourly H eq_refl) as (_ & _ & W & _ & _).
  destruct (fresh_flags_first_cycle example_str "nws" "40.0" "-75.0" "k" tt
              (Some "KXYZ") (quiet all_good) [] all_good
              observation (List.Forall_nil _) eq_refl) as (_ & _ & _ & W1 & W2).
  split; [exact (W (ClientError "down") eq_refl eq_refl)|].
  split; [exact (W1 eq_refl)|exact (W2 (λ j, eq_refl))].
Defined.

(** ** Validation of a per-location configuration *)

Example both_coordinates_pass :
  validate_dict (_INDIVIDUAL_SCHEMA example_cv) config_with_both =
    inr config_with_both.
Proof. vm_compute. reflexivity. Qed.

Example no_coordinates_pass :
  validate_dict (_INDIVIDUAL_SCHEMA example_cv) {[ "api_key" := VStr "k" ]} =
    inr {[ "api_key" := VStr "k" ]}.
Proof. vm_compute. reflexivity. Qed.

Example no_key_fails :
  validate_dict (_INDIVIDUAL_SCHEMA example_cv) {[ "station" := VStr "KXYZ" ]} =
    inl [RequiredFieldInvalid ["api_key"]].
Proof. vm_compute. reflexivity. Qed.

(** C7.  Whatever the value validators, a per-location config that
    holds a latitude and no longitude, or a longitude and no latitude,
    fails validation with the schema's own message; so does the config
    with api_key "k" and latitude 40.0 and no longitude. *)
Theorem coordinates_must_come_together cv :
  (∀ data : gmap string value,
     (is_Some (data !! CONF_LATITUDE) ∧ data !! CONF_LONGITUDE = None) ∨
     (data !! CONF_LATITUDE = None ∧ is_Some (data !! CONF_LONGITUDE)) →
     validate_dict (_INDIVIDUAL_SCHEMA cv) data =
       inl [InclusiveInvalid "Latitude and longitude must exist together"
              ["coordinates"]]) ∧
  validate_dict (_INDIVIDUAL_SCHEMA cv) config_without_longitude =
    inl [InclusiveInvalid "Latitude and longitude must exist together"
           ["coordinates"]].
Proof.
  assert (G : ∀ data : gmap string value,
     (is_Some (data !! CONF_LATITUDE) ∧ data !! CONF_LONGITUDE = None) ∨
     (data !! CONF_LATITUDE = None ∧ is_Some (data !! CONF_LONGITUDE)) →
     validate_dict (_INDIVIDUAL_SCHEMA cv) data =
       inl [InclusiveInvalid "Latitude and longitude must exist together"
              ["coordinates"]]).
  { intros data H. unfold validate_dict.
    change (groups_of_inclusion (_INDIVIDUAL_SCHEMA cv)) with ["coordinates"].
    unfold check_inclusion.
    change (group "coordinates" (_INDIVIDUAL_SCHEMA cv)) with
      [mkEntry (Inclusive "coordinates" "Latitude and longitude must exist together")
         CONF_LATITUDE (cv_latitude cv);
       mkEntry (Inclusive "coordinates" "Latitude and longitude must exist together")
         CONF_LONGITUDE (cv_longitude cv)].
    unfold group_violated. cbn [map schema_key existsb forallb id].
    destruct H as [[H1 H2]|[H1 H2]].
    - rewrite (bool_decide_eq_true_2 _ H1).
      rewrite bool_decide_eq_false_2 by (rewrite H2; apply is_Some_None).
      reflexivity.
    - rewrite (bool_decide_eq_true_2 _ H2).
      rewrite bool_decide_eq_false_2 by (rewrite H1; apply is_Some_None).
      reflexivity. }
  split; [exact G|].
  apply G. left. split; [|reflexivity]. by eexists.
Qed.

Lemma coordinates_must_come_together_witness :
  (config_without_latitude !! CONF_LATITUDE = None ∧
   is_Some (config_without_latitude !! CONF_LONGITUDE)) ∧
  validate_dict (_INDIVIDUAL_SCHEMA example_cv) config_without_latitude =
    inl [InclusiveInvalid "Latitude and longitude must exist together"
           ["coordinates"]].
Proof.
  assert (H : config_without_latitude !! CONF_LATITUDE = None ∧
              is_Some (config_without_latitude !! CONF_LONGITUDE)).
  { split; [reflexivity|]. exists (VNum (-75)). reflexivity. }
  split; [exact H|].
  apply (proj1 (coordinates_must_come_together example_cv)).
  right. exact H.
Defined.

(** ** Which configurations are accepted *)

Lemma lefts_nil {A B} (l : list (A + B)) :
  lefts l = [] ↔ ∀ x, x ∈ l → ∃ b, x = inr b.
Proof.
  unfold lefts. induction l as [|[a|b] l IH]; cbn.
  - split; [|done]. intros _ x Hx. by apply elem_of_nil in Hx.
  - split; [done|]. intros H. destruct (H (inl a)) as [b Hb]; [left|done].
  - rewrite IH. split.
    + intros H x Hx. apply elem_of_cons in Hx as [->|Hx]; [by eexists|by apply H].
    + intros H x Hx. apply H. by right.
Qed.

Lemma elem_of_rights {A B} (l : list (A + B)) (b : B) :
  b ∈ rights l ↔ inr b ∈ l.
Proof.
  unfold rights. rewrite list_elem_of_omap. split.
  - intros ([a|b'] & Hx & E); [done|]. by injection E as ->.
  - intros H. by exists (inr b).
Qed.

Lemma validate_item_key schema kv k v :
  validate_item schema kv = inr (k, v) → k = kv.1.
Proof.
  unfold validate_item. destruct (List.find _ schema) as [e|]; [|done].
  destruct (validator e kv.2); [|done]. by intros [= <- _].
Qed.

Lemma validated_keys_NoDup schema (l : list (string * value)) :
  NoDup (l.*1) → NoDup ((rights (validate_item schema <$> l)).*1).
Proof.
  induction l as [|kv l IH]; cbn; [constructor|].
  intros Hnd. apply NoDup_cons in Hnd as [Hkv Hnd]. unfold rights in *. cbn.
  destruct (validate_item schema kv) as [err|[k v]] eqn:E; cbn; [by apply IH|].
  apply NoDup_cons. split; [|by apply IH].
  apply validate_item_key in E as ->.
  intros Hin. apply Hkv.
  apply list_elem_of_fmap in Hin as ([k' v'] & Hk & Hin). cbn in Hk.
  apply (elem_of_rights (validate_item schema <$> l)) in Hin.
  apply list_elem_of_fmap in Hin as (kv' & E' & Hin).
  symmetry in E'. apply validate_item_key in E'. cbn in E'.
  apply list_elem_of_fmap. exists kv'. split; [congruence|done].
Qed.

Lemma individual_find cv k e :
  List.find (λ e, String.eqb (schema_key e) k) (_INDIVIDUAL_SCHEMA cv) = Some e ↔
  e ∈ _INDIVIDUAL_SCHEMA cv ∧ schema_key e = k.
Proof.
  unfold _INDIVIDUAL_SCHEMA. cbn [List.find schema_key]. split.
  - repeat (match goal with
            | |- context [String.eqb ?a ?b] =>
                destruct (String.eqb_spec a b) as [<-|?]
            end; [intros [= <-]; split; [set_solver|done]|]).
    done.
  - intros [Hin <-].
    repeat (apply elem_of_cons in Hin as [->|Hin]; [reflexivity|]).
    by apply elem_of_nil in Hin.
Qed.

Lemma inclusion_checked cv (data : gmap string value) :
  check_inclusion data (_INDIVIDUAL_SCHEMA cv)
    (groups_of_inclusion (_INDIVIDUAL_SCHEMA cv)) = [] ↔
  (is_Some (data !! CONF_LATITUDE) ↔ is_Some (data !! CONF_LONGITUDE)).
Proof.
  change (groups_of_inclusion (_INDIVIDUAL_SCHEMA cv)) with ["coordinates"].
  unfold check_inclusion.
  change (group "coordinates" (_INDIVIDUAL_SCHEMA cv)) with
    [mkEntry (Inclusive "coordinates" "Latitude and longitude must exist together")
       CONF_LATITUDE (cv_latitude cv);
     mkEntry (Inclusive "coordinates" "Latitude and longitude must exist together")
       CONF_LONGITUDE (cv_longitude cv)].
  unfold group_violated. cbn [map schema_key existsb forallb id].
  destruct (decide (is_Some (data !! CONF_LATITUDE))) as [H1|H1];
    destruct (decide (is_Some (data !! CONF_LONGITUDE))) as [H2|H2];
    rewrite ?(bool_decide_eq_true_2 _ H1), ?(bool_decide_eq_false_2 _ H1),
      ?(bool_decide_eq_true_2 _ H2), ?(bool_decide_eq_false_2 _ H2);
    cbn; split; try done; tauto.
Qed.

Lemma required_present cv (data : gmap string value) :
  missing_required (_INDIVIDUAL_SCHEMA cv) data = [] ↔
  is_Some (data !! CONF_API_KEY).
Proof.
  unfold missing_required, _INDIVIDUAL_SCHEMA.
  cbn [omap list_omap is_required mark schema_key andb].
  destruct (data !! CONF_API_KEY) as [v|] eqn:E.
  - rewrite bool_decide_eq_false_2 by done. split; [by eexists|done].
  - rewrite bool_decide_eq_true_2 by done. split; [done|].
    by intros [v Hv].
Qed.

Lemma items_validated cv (data : gmap string value) :
  lefts (validate_item (_INDIVIDUAL_SCHEMA cv) <$> map_to_list data) = [] ↔
  ∀ k v, data !! k = Some v →
    ∃ e, e ∈ _INDIVIDUAL_SCHEMA cv ∧ schema_key e = k ∧ is_Some (validator e v).
Proof.
  rewrite lefts_nil. split.
  - intros H k v Hkv.
    destruct (H (validate_item (_INDIVIDUAL_SCHEMA cv) (k, v))) as [[k' v'] E].
    { apply list_elem_of_fmap_2. by apply elem_of_map_to_list. }
    unfold validate_item in E. cbn [fst snd] in E.
    destruct (List.find _ _) as [e|] eqn:F; [|done].
    apply individual_find in F as [Hin Hk].
    exists e. split; [done|]. split; [done|].
    destruct (validator e v); [by eexists|done].
  - intros H x Hx. apply list_elem_of_fmap in Hx as ([k v] & -> & Hkv).
    apply elem_of_map_to_list in Hkv.
    destruct (H k v Hkv) as (e & Hin & Hk & [v' Hv]).
    unfold validate_item. cbn [fst snd].
    rewrite (proj2 (individual_find cv k e)) by done.
    rewrite Hv. by eexists.
Qed.

(** A per-location configuration is accepted exactly when it holds an
    API key, holds a latitude and a longitude together or neither, and
    each of its keys is one of the schema with a value that the
    validator of this key accepts. *)
Theorem accepted_configurations cv (data : gmap string value) :
  (∃ out, validate_dict (_INDIVIDUAL_SCHEMA cv) data = inr out) ↔
  is_Some (data !! CONF_API_KEY) ∧
  (is_Some (data !! CONF_LATITUDE) ↔ is_Some (data !! CONF_LONGITUDE)) ∧
  (∀ k v, data !! k = Some v →
     ∃ e, e ∈ _INDIVIDUAL_SCHEMA cv ∧ schema_key e = k ∧
          is_Some (validator e v)).
Proof.
  pose proof (inclusion_checked cv data) as I.
  pose proof (required_present cv data) as R.
  pose proof (items_validated cv data) as V.
  unfold validate_dict, validate_mapping.
  destruct (check_inclusion data (_INDIVIDUAL_SCHEMA cv)
              (groups_of_inclusion (_INDIVIDUAL_SCHEMA cv))) as [|err errs].
  - destruct (lefts (validate_item (_INDIVIDUAL_SCHEMA cv) <$> map_to_list data))
      as [|err errs].
    + destruct (missing_required (_INDIVIDUAL_SCHEMA cv) data)
        as [|err errs]; cbn [app].
      * split; [|intros _; by eexists].
        intros _. split; [by apply R|]. split; [by apply I|by apply V].
      * split; [by intros [out ?]|]. intros (H & _). by apply R in H.
    + cbn [app]. split; [by intros [out ?]|].
      intros (_ & _ & H). by apply V in H.
  - split; [by intros [out ?]|]. intros (_ & H & _). by apply I in H.
Qed.

(** What an accepted configuration is turned into: the same keys, each
    with the value its validator returns. *)
Theorem accepted_configuration_is_validated cv (data out : gmap string value) :
  validate_dict (_INDIVIDUAL_SCHEMA cv) data = inr out →
  ∀ k v', out !! k = Some v' ↔
    ∃ v e, data !! k = Some v ∧ e ∈ _INDIVIDUAL_SCHEMA cv ∧
           schema_key e = k ∧ validator e v = Some v'.
Proof.
  unfold validate_dict, validate_mapping.
  destruct (check_inclusion data (_INDIVIDUAL_SCHEMA cv)
              (groups_of_inclusion (_INDIVIDUAL_SCHEMA cv))); [|done].
  destruct (lefts (validate_item (_INDIVIDUAL_SCHEMA cv) <$> map_to_list data)
              ++ missing_required (_INDIVIDUAL_SCHEMA cv) data); [|done].
  intros [= <-] k v'.
  rewrite <- elem_of_list_to_map
    by apply validated_keys_NoDup, NoDup_fst_map_to_list.
  rewrite elem_of_rights, list_elem_of_fmap. split.
  - intros ([k0 v] & E & Hkv). apply elem_of_map_to_list in Hkv.
    symmetry in E. pose proof (validate_item_key _ _ _ _ E) as Hk.
    cbn in Hk. subst k0.
    unfold validate_item in E. cbn [fst snd] in E.
    destruct (List.find _ _) as [e|] eqn:F; [|done].
    apply individual_find in F as [Hin Hk].
    destruct (validator e v) as [v0|] eqn:V; [|done].
    injection E as <-. by exists v, e.
  - intros (v & e & Hkv & Hin & Hk & V). exists (k, v).
    split; [|by apply elem_of_map_to_list].
    unfold validate_item. cbn [fst snd].
    rewrite (proj2 (individual_find cv k e)) by done. by rewrite V.
Qed.

(** ** Examples for the further properties *)

(** A rendering of the values of the examples: strings as they are,
    whole numbers as Python renders the floats. *)
Definition example_str_value (v : value) : string :=
  match v with
  | VStr s => s
  | VNum q => NilZero.string_of_int (Z.to_int (Qnum q)) +:+ ".0"
  | VBool true => "True"
  | VBool false => "False"
  | VNone => "None"
  end.

Definition example_entry : ConfigEntry :=
  mkConfigEntry "entry-1"
    {[ "api_key" := VStr "k"; "latitude" := VNum 40;
       "longitude" := VNum (-75); "station" := VStr "KXYZ" ]}.

(** An entry whose data holds no station. *)
Definition entry_without_station : ConfigEntry :=
  mkConfigEntry "entry-2" config_with_both.

(** A client that binds to the station it is given, and to KABC when
    given none. *)
Definition example_client (station : value) : station_answer :=
  match station with
  | VStr s => StationBound (Some s) "['KXYZ', 'KABC']"
  | _ => StationBound (Some "KABC") "['KABC', 'KXYZ']"
  end.

Definition failing_client (station : value) : station_answer :=
  StationRaises (ClientError "down").

(** A host before [async_setup], and one after it. *)
Definition empty_host : @HomeAssistant unit :=
  mkHass ∅ [] [] [] (quiet all_good).

Definition ready_host : @HomeAssistant unit :=
  mkHass {[ "nws" := ∅ ]} [] [] [] (quiet all_good).

(** A host with two entries registered. *)
Definition busy_host : @HomeAssistant unit :=
  mkHass {[ "nws" := {[ "entry-1" := 0; "entry-2" := 1 ]} ]}
    [NwsData_init (VNum 40) (VNum (-75)) "k" tt;
     NwsData_init (VNum 41) (VNum (-76)) "k" tt]
    [(0, 10); (1, 10)] [] (quiet all_good).

Definition unloads (component : string) : bool := true.

Definition refuses (component : string) : bool := false.

Lemma item_update_is_edge_triggered_witness :
  fst (_async_update_item (nws_update forecast) "forecast" (Some "KXYZ") false
         (example_coordinator forecast_times_out)) = Ret false ∧
  log (world (snd (_async_update_item (nws_update forecast) "forecast"
                     (Some "KXYZ") false
                     (example_coordinator forecast_times_out)))) =
    [mkLog DEBUG MSG_UPDATING ["forecast"; "KXYZ"]].
Proof.
  destruct (item_update_is_edge_triggered forecast "forecast" (Some "KXYZ")
              false (example_coordinator forecast_times_out) eq_refl)
    as (H1 & _ & _ & _ & edge & H2 & _ & H3).
  split; [exact H1|].
  destruct edge; [exact H2|discriminate H3].
Defined.

Lemma unrecognized_exception_is_not_logged_witness :
  _async_update_item (nws_update forecast) "forecast" (Some "KXYZ") true
    (example_coordinator forecast_crashes) =
    (Raise (OtherException "ValueError" "bad payload"),
     mkSys (self (example_coordinator forecast_crashes))
       (mkWorld forecast_crashes [forecast]
          [mkLog DEBUG MSG_UPDATING ["forecast"; "KXYZ"]] [])).
Proof.
  exact (unrecognized_exception_is_not_logged forecast "forecast"
           (Some "KXYZ") true (example_coordinator forecast_crashes)
           (OtherException "ValueError" "bad payload") eq_refl eq_refl).
Defined.

Lemma unique_ids_tell_locations_apart_witness :
  (base_unique_id example_str "40.0" "-75.0" =
   base_unique_id example_str "40.0" "-75.5" ↔
   example_str "40.0" = example_str "40.0" ∧
   example_str "-75.0" = example_str "-75.5") ∧
  (signal_unique_id example_str "nws" "40.0" "-75.0" =
   signal_unique_id example_str "nws" "40.0" "-75.5" ↔
   example_str "40.0" = example_str "40.0" ∧
   example_str "-75.0" = example_str "-75.5").
Proof.
  exact (unique_ids_tell_locations_apart example_str "nws"
           "40.0" "-75.0" "40.0" "-75.5" eq_refl eq_refl).
Defined.

Lemma bound_station_survives_updates_witness :
  station (self (run example_str "nws" [all_fail; forecast_crashes; all_good]
                   (snd (async_set_station example_client (VStr "KXYZ")
                           (fresh_coordinator "40.0" "-75.0" "k" tt None
                              (quiet all_good)))))) = Some "KXYZ" ∧
  async_set_station failing_client VNone (example_coordinator all_good) =
    (Raise (ClientError "down"), example_coordinator all_good).
Proof.
  split.
  - apply (proj1 (bound_station_survives_updates example_str "nws"
                    example_client (VStr "KXYZ")
                    [all_fail; forecast_crashes; all_good]
                    (fresh_coordinator "40.0" "-75.0" "k" tt None
                       (quiet all_good)))
             (Some "KXYZ") "['KXYZ', 'KABC']" eq_refl).
  - apply (proj2 (bound_station_survives_updates example_str "nws"
                    failing_client VNone [] (example_coordinator all_good))
             (ClientError "down") eq_refl).
Defined.

Lemma setup_entry_needs_every_key_witness :
  ∃ missing,
    data entry_without_station !! missing = None ∧
    async_setup_entry tt example_str_value "nws" example_client
      entry_without_station ready_host =
      (Raise (KeyError missing), ready_host).
Proof.
  apply (setup_entry_needs_every_key tt example_str_value "nws" example_client
           entry_without_station ready_host CONF_STATION).
  - set_solver.
  - reflexivity.
Defined.

Lemma setup_entry_needs_async_setup_witness :
  fst (async_setup_entry tt example_str_value "nws" example_client
         example_entry empty_host) = Raise (KeyError "nws") ∧
  hass_data (snd (async_setup_entry tt example_str_value "nws" example_client
                    example_entry empty_host)) = hass_data empty_host ∧
  timers (snd (async_setup_entry tt example_str_value "nws" example_client
                 example_entry empty_host)) = timers empty_host ∧
  tasks (snd (async_setup_entry tt example_str_value "nws" example_client
                example_entry empty_host)) = tasks empty_host ∧
  hass_world (snd (async_setup_entry tt example_str_value "nws" example_client
                     example_entry empty_host)) = hass_world empty_host.
Proof.
  exact (setup_entry_needs_async_setup tt example_str_value "nws"
           example_client example_entry empty_host
           (VNum 40) (VNum (-75)) (VStr "k") (VStr "KXYZ")
           eq_refl eq_refl eq_refl eq_refl eq_refl).
Defined.

Lemma setup_entry_succeeds_witness :
  ∃ d h',
    async_setup_entry tt example_str_value "nws" example_client
      example_entry ready_host = (Ret true, h') ∧
    hass_data h' = <[ "nws" := <[ "entry-1" := 0 ]> ∅ ]> (hass_data ready_host) ∧
    coordinators h' = [d] ∧
    latitude d = VNum 40 ∧ longitude d = VNum (-75) ∧
    nws_api_key (nws d) = "k homeassistant" ∧
    station d = Some "KXYZ" ∧
    (∀ it, flag it d = is_success (all_good it)) ∧
    requests (hass_world h') = [observation; forecast; forecast_hourly] ∧
    signals (hass_world h') = ["nws_40.0_-75.0"] ∧
    timers h' = [(0, 10)] ∧
    tasks h' = [("entry-1", "weather")].
Proof.
  exact (setup_entry_succeeds tt example_str_value "nws" example_client
           example_entry ready_host
           (VNum 40) (VNum (-75)) (VStr "k") (VStr "KXYZ") ∅
           (Some "KXYZ") "['KXYZ', 'KABC']"
           eq_refl eq_refl eq_refl eq_refl eq_refl eq_refl
           (λ it, eq_refl)).
Defined.

Lemma failed_setup_leaves_coordinator_registered_witness :
  fst (async_setup_entry tt example_str_value "nws" failing_client
         example_entry ready_host) = Raise (ClientError "down") ∧
  hass_data (snd (async_setup_entry tt example_str_value "nws" failing_client
                    example_entry ready_host)) !! "nws" =
    Some (<[ "entry-1" := 0 ]> ∅) ∧
  length (coordinators
            (snd (async_setup_entry tt example_str_value "nws" failing_client
                    example_entry ready_host))) = 1 ∧
  timers (snd (async_setup_entry tt example_str_value "nws" failing_client
                 example_entry ready_host)) = [] ∧
  tasks (snd (async_setup_entry tt example_str_value "nws" failing_client
                example_entry ready_host)) = [] ∧
  signals (hass_world
             (snd (async_setup_entry tt example_str_value "nws" failing_client
                     example_entry ready_host))) = [].
Proof.
  exact (failed_setup_leaves_coordinator_registered tt example_str_value "nws"
           failing_client example_entry ready_host
           (VNum 40) (VNum (-75)) (VStr "k") (VStr "KXYZ") ∅
           (ClientError "down")
           eq_refl eq_refl eq_refl eq_refl eq_refl (or_introl eq_refl)).
Defined.

Lemma unload_entry_removes_entry_witness :
  ∃ h',
    async_unload_entry "nws" unloads example_entry busy_host = (Ret true, h') ∧
    hass_data h' !! "nws" =
      (if bool_decide (delete "entry-1"
                         ({[ "entry-1" := 0; "entry-2" := 1 ]} : gmap string nat)
                       = ∅)
       then None
       else Some (delete "entry-1" {[ "entry-1" := 0; "entry-2" := 1 ]})) ∧
    (∀ other, other ≠ "entry-1" →
       (hass_data h' !! "nws" ≫= (.!! other)) =
       ({[ "entry-1" := 0; "entry-2" := 1 ]} : gmap string nat) !! other) ∧
    (∀ domain, domain ≠ "nws" →
       hass_data h' !! domain = hass_data busy_host !! domain) ∧
    coordinators h' = coordinators busy_host ∧
    timers h' = [(0, 10); (1, 10)] ∧
    tasks h' = [] ∧
    hass_world h' = hass_world busy_host.
Proof.
  exact (unload_entry_removes_entry "nws" unloads example_entry busy_host
           {[ "entry-1" := 0; "entry-2" := 1 ]} 0
           eq_refl eq_refl eq_refl).
Defined.

Lemma unload_entry_fails_cleanly_witness :
  async_unload_entry "nws" refuses example_entry busy_host =
    (Ret false, busy_host) ∧
  async_unload_entry "nws" unloads example_entry empty_host =
    (Raise (KeyError "nws"), empty_host) ∧
  async_unload_entry "nws" unloads example_entry ready_host =
    (Raise (KeyError "entry-1"), ready_host).
Proof.
  split; [|split].
  - exact (proj1 (unload_entry_fails_cleanly "nws" refuses example_entry
                    busy_host) eq_refl).
  - exact (proj1 (proj2 (unload_entry_fails_cleanly "nws" unloads
                           example_entry empty_host)) eq_refl eq_refl).
  - exact (proj2 (proj2 (unload_entry_fails_cleanly "nws" unloads
                           example_entry ready_host)) ∅ eq_refl eq_refl eq_refl).
Defined.

Lemma unloading_the_last_entry_forgets_the_domain_witness :
  hass_data (set_up_and_unloaded tt example_str_value "nws" example_client
               unloads example_entry empty_host) = ∅ ∧
  fst (async_setup_entry tt example_str_value "nws" example_client
         example_entry
         (set_up_and_unloaded tt example_str_value "nws" example_client
            unloads example_entry empty_host)) = Raise (KeyError "nws").
Proof.
  destruct (unloading_the_last_entry_forgets_the_domain tt example_str_value
              "nws" example_client unloads example_entry empty_host
              (VNum 40) (VNum (-75)) (VStr "k") (VStr "KXYZ")
              (Some "KXYZ") "['KXYZ', 'KABC']"
              eq_refl eq_refl eq_refl eq_refl eq_refl eq_refl
              (λ it, eq_refl) eq_refl) as (H1 & H2 & _).
  split; [exact H1|].
  apply H2; by eexists.
Defined.

Lemma listener_outlives_unload_witness :
  timers (set_up_and_unloaded tt example_str_value "nws" example_client
            unloads example_entry empty_host) = [(0, 10)] ∧
  requests (hass_world
              (fire example_str_value "nws" all_fail 0
                 (set_up_and_unloaded tt example_str_value "nws"
                    example_client unloads example_entry empty_host))) =
    requests (hass_world
                (set_up_and_unloaded tt example_str_value "nws"
                   example_client unloads example_entry empty_host))
      ++ [observation; forecast; forecast_hourly] ∧
  signals (hass_world
             (fire example_str_value "nws" all_fail 0
                (set_up_and_unloaded tt example_str_value "nws"
                   example_client unloads example_entry empty_host))) =
    signals (hass_world
               (set_up_and_unloaded tt example_str_value "nws"
                  example_client unloads example_entry empty_host))
      ++ ["nws_40.0_-75.0"].
Proof.
  exact (listener_outlives_unload tt example_str_value "nws" example_client
           unloads example_entry empty_host
           (VNum 40) (VNum (-75)) (VStr "k") (VStr "KXYZ")
           (Some "KXYZ") "['KXYZ', 'KABC']" all_fail
           eq_refl eq_refl eq_refl eq_refl eq_refl eq_refl
           (λ it, eq_refl) eq_refl (λ it, eq_refl)).
Defined.

Lemma accepted_configuration_is_validated_witness :
  ∃ v e, config_with_both !! "latitude" = Some v ∧
         e ∈ _INDIVIDUAL_SCHEMA example_cv ∧
         schema_key e = "latitude" ∧ validator e v = Some (VNum 40).
Proof.
  assert (H : validate_dict (_INDIVIDUAL_SCHEMA example_cv) config_with_both =
              inr config_with_both) by (vm_compute; reflexivity).
  apply (proj1 (accepted_configuration_is_validated example_cv
                  config_with_both config_with_both H "latitude" (VNum 40))).
  reflexivity.
Defined.
